(** * addons::CircularBuffer and addons::CBuffIterator

    A shallow embedding of the ring buffer of [addons/circularbuffer.h]
    (class [CircularBuffer], the basic, evicting variant) and of its
    random-access cursor [CBuffIterator].

    Pointers are addresses counted in elements and kept as [Z]; pointer
    arithmetic is plain integer arithmetic, so a marker that the code moves
    outside its block simply becomes an address outside
    [start_of_storage, end_of_storage].  A read or a write through an address
    outside the block has no meaning in the model and yields [Undefined].
    Values of type [size_type] are reduced modulo [2^64], as the conversion
    from [difference_type] does. *)

From Stdlib Require Import ZArith Lia.
From stdpp Require Import base numbers list strings.

Local Open Scope Z_scope.

(** ** Results of a call *)

Inductive exception : Type :=
  | length_error (what : string).

(** [Returns a]: the call returns [a].  [Throws e]: it leaves by the
    exception [e].  [Undefined]: it divides by zero, negates the least
    [difference_type], or touches memory outside the block.  [OutOfFuel]:
    the bound put on a cursor loop of the model was reached. *)
Inductive outcome (A : Type) : Type :=
  | Returns (a : A)
  | Throws (e : exception)
  | Undefined
  | OutOfFuel.

Arguments Returns {A} a.
Arguments Throws {A} e.
Arguments Undefined {A}.
Arguments OutOfFuel {A}.

#[global] Instance outcome_ret : MRet outcome := fun A a => Returns a.

#[global] Instance outcome_bind : MBind outcome := fun A B f m =>
  match m with
  | Returns a => f a
  | Throws e => Throws e
  | Undefined => Undefined
  | OutOfFuel => OutOfFuel
  end.

(** ** Integer conversions *)

Definition to_size_t (z : Z) : Z := z `mod` 2 ^ 64.

Definition to_difference_type (z : Z) : Z :=
  let r := z `mod` 2 ^ 64 in
  if decide (r < 2 ^ 63) then r else r - 2 ^ 64.

Definition PTRDIFF_MAX : Z := 2 ^ 63 - 1.
Definition PTRDIFF_MIN : Z := - 2 ^ 63.

(** ** What the container takes from its template parameters

    The element type supplies [Tp()], the value a default-constructed slot
    holds, and [sizeof(Tp)]; [indeterminate] is what a slot of freshly
    allocated memory holds before it is constructed.  The element type is
    trivially destructible: [std::_Destroy] leaves the slot as it is. *)
Class Element (Tp : Type) : Type := {
  dflt : Tp;
  indeterminate : Tp;
  sizeof_Tp : Z
}.

(** The allocator: the address [allocate n] hands out for a block of [n]
    slots, and the allocator's own [max_size]. *)
Class Allocator : Type := {
  allocate : Z → Z;
  alloc_max_size : Z
}.

(** ** The container's state

    The four markers of the class, and the block they point into:
    [storage] lists the slots at the addresses [start_of_storage],
    [start_of_storage + 1], ... *)
Record CircularBuffer (Tp : Type) : Type := mkBuffer {
  start : Z;
  finish : Z;
  start_of_storage : Z;
  end_of_storage : Z;
  storage : list Tp
}.

Arguments mkBuffer {Tp} _ _ _ _ _.
Arguments start {Tp} _.
Arguments finish {Tp} _.
Arguments start_of_storage {Tp} _.
Arguments end_of_storage {Tp} _.
Arguments storage {Tp} _.

Section Container.

Context {Tp : Type} `{!Element Tp} `{!Allocator}.

#[local] Abbreviation CircularBuffer := (CircularBuffer Tp).

Definition set_start (p : Z) (b : CircularBuffer) : CircularBuffer :=
  mkBuffer p (finish b) (start_of_storage b) (end_of_storage b) (storage b).

Definition set_finish (p : Z) (b : CircularBuffer) : CircularBuffer :=
  mkBuffer (start b) p (start_of_storage b) (end_of_storage b) (storage b).

Definition set_storage (l : list Tp) (b : CircularBuffer) : CircularBuffer :=
  mkBuffer (start b) (finish b) (start_of_storage b) (end_of_storage b) l.

(** [*p] as an rvalue and [*p = v]. *)
Definition load (p : Z) (b : CircularBuffer) : outcome Tp :=
  if decide (start_of_storage b ≤ p < end_of_storage b) then
    match storage b !! Z.to_nat (p - start_of_storage b) with
    | Some v => Returns v
    | None => Undefined
    end
  else Undefined.

Definition store (p : Z) (v : Tp) (b : CircularBuffer) : outcome CircularBuffer :=
  if decide (start_of_storage b ≤ p < end_of_storage b) then
    if decide (Z.to_nat (p - start_of_storage b) < length (storage b))%nat then
      Returns (set_storage (<[Z.to_nat (p - start_of_storage b) := v]> (storage b)) b)
    else Undefined
  else Undefined.

(** ** Capacity introspection *)

Definition empty (b : CircularBuffer) : bool :=
  bool_decide (start b = finish b).

Definition size (b : CircularBuffer) : Z :=
  to_size_t
    (if decide (start b ≤ finish b ∧ finish b ≠ end_of_storage b) then
       finish b - start b
     else if decide (finish b ≠ end_of_storage b) then
       (finish b - start_of_storage b) + (end_of_storage b - start b)
     else end_of_storage b - start_of_storage b).

Definition max_size : Z :=
  let diffmax := PTRDIFF_MAX `div` sizeof_Tp in
  let allocmax := alloc_max_size in
  Z.min diffmax allocmax.

Definition capacity (b : CircularBuffer) : Z :=
  to_size_t (end_of_storage b - start_of_storage b).

(** ** Cursors

    A [CBuffIterator] is its [stored_ptr]; the buffer it refers to is the
    state the operation is run in. *)

Definition begin (b : CircularBuffer) : Z := start b.
Definition end_ (b : CircularBuffer) : Z := finish b.
Definition cbegin (b : CircularBuffer) : Z := start b.
Definition cend (b : CircularBuffer) : Z := start b.

(** [_offset % buffer->size()]: the operands are brought to [size_type]. *)
Definition mod_size (b : CircularBuffer) (offset : Z) : outcome Z :=
  if decide (size b = 0) then Undefined
  else Returns (to_difference_type (to_size_t offset `mod` size b)).

(** [CBuffIterator::operator[]] *)
Definition iter_index (b : CircularBuffer) (p offset : Z) : outcome Tp :=
  offset ← mod_size b offset;
  if decide (end_of_storage b ≤ p + offset) then
    load (start_of_storage b + (p + offset - end_of_storage b)) b
  else load (p + offset) b.

(** [CBuffIterator::at] *)
Definition iter_at (b : CircularBuffer) (p offset : Z) : outcome Tp :=
  offset ← mod_size b offset;
  if decide (end_of_storage b ≤ p + offset) then
    load (start_of_storage b + (p + offset - end_of_storage b)) b
  else load (p + offset) b.

(** [operator++], prefix and postfix: the new [stored_ptr]. *)
Definition iter_incr (b : CircularBuffer) (p : Z) : Z :=
  let p := p + 1 in
  if decide (p = start b) then end_of_storage b
  else if decide (p = end_of_storage b ∧ start b ≠ start_of_storage b) then
    start_of_storage b
  else p.

(** [operator--], prefix and postfix: the new [stored_ptr]. *)
Definition iter_decr (b : CircularBuffer) (p : Z) : Z :=
  if decide (p = start b) then end_of_storage b
  else
    let p := if decide (p = end_of_storage b) then start b else p in
    if decide (p = start_of_storage b) then end_of_storage b - 1
    else p - 1.

(** The body of [operator+=] once the offset is known to be positive. *)
Definition plus_assign_pos (b : CircularBuffer) (p offset : Z) : outcome Z :=
  offset ← mod_size b offset;
  if decide (end_of_storage b ≤ p + offset) then
    let p := start_of_storage b + offset - (end_of_storage b - p) in
    mret (if decide (p = start b) then end_of_storage b else p)
  else if decide (p + offset = start b) then mret (end_of_storage b)
  else mret (p + offset).

(** The body of [operator-=] once the offset is known to be positive. *)
Definition minus_assign_pos (b : CircularBuffer) (p offset : Z) : outcome Z :=
  offset ← mod_size b offset;
  let '(p, offset) :=
    if decide (p = end_of_storage b) then
      (if decide (start b = start_of_storage b) then end_of_storage b - 1
       else start b - 1, offset - 1)
    else (p, offset) in
  if decide (p - offset < start_of_storage b) then
    mret (end_of_storage b - offset + (p - start_of_storage b))
  else mret (p - offset).

(** [operator+=] *)
Definition iter_plus_assign (b : CircularBuffer) (p offset : Z) : outcome Z :=
  if decide (offset = 0) then mret p
  else if decide (offset < 0) then
    if decide (offset = PTRDIFF_MIN) then Undefined
    else minus_assign_pos b p (- offset)
  else plus_assign_pos b p offset.

(** [operator-=] *)
Definition iter_minus_assign (b : CircularBuffer) (p offset : Z) : outcome Z :=
  if decide (offset = 0) then mret p
  else if decide (offset < 0) then
    if decide (offset = PTRDIFF_MIN) then Undefined
    else plus_assign_pos b p (- offset)
  else minus_assign_pos b p offset.

(** [operator+(it, offset)] and [operator-(it, offset)] *)
Definition iter_plus (b : CircularBuffer) (p offset : Z) : outcome Z :=
  iter_plus_assign b p offset.

Definition iter_minus (b : CircularBuffer) (p offset : Z) : outcome Z :=
  iter_minus_assign b p offset.

(** [operator-(left, right)], the distance of two cursors. *)
Definition iter_diff (b : CircularBuffer) (left right : Z) : Z :=
  if decide (start b ≤ finish b
             ∨ (left ≤ finish b ∧ right ≤ finish b)
             ∨ (start b ≤ left ∧ start b ≤ right)) then
    left - right
  else if decide (left ≤ right) then
    (end_of_storage b - right) + (left - start_of_storage b)
  else
    (end_of_storage b - left) + (right - start_of_storage b).

(** ** Element access *)

Definition front (b : CircularBuffer) : outcome Tp := load (start b) b.

Definition back (b : CircularBuffer) : outcome Tp :=
  load (iter_decr b (end_ b)) b.

(** [operator[]] and [at] of the container; the [size_type] argument becomes
    the cursor's [difference_type]. *)
Definition index (b : CircularBuffer) (offset : Z) : outcome Tp :=
  iter_index b (begin b) (to_difference_type offset).

Definition at_ (b : CircularBuffer) (offset : Z) : outcome Tp :=
  iter_at b (begin b) (to_difference_type offset).

(** ** Construction from a literal list *)

Definition of_list (l : list Tp) : CircularBuffer :=
  let p := allocate (Z.of_nat (length l)) in
  mkBuffer p (p + Z.of_nat (length l)) p (p + Z.of_nat (length l)) l.

(** ** push and pop *)

Definition push_back (v : Tp) (b : CircularBuffer) : outcome CircularBuffer :=
  if decide (finish b = end_of_storage b) then
    b ← store (begin b) v b;
    mret (set_start (iter_incr b (begin b)) b)
  else
    let b := set_finish (finish b + 1) b in
    store (iter_decr b (end_ b)) v b.

Definition push_front (v : Tp) (b : CircularBuffer) : outcome CircularBuffer :=
  if decide (finish b = end_of_storage b) then
    b ← store (iter_decr b (end_ b)) v b;
    mret (set_start (iter_decr b (end_ b)) b)
  else
    let b :=
      if decide (start b ≠ start_of_storage b) then set_start (start b - 1) b
      else set_start (end_of_storage b - 1) b in
    store (begin b) v b.

(** [std::_Destroy] leaves the slot as it is. *)
Definition pop_back (b : CircularBuffer) : CircularBuffer :=
  if negb (empty b) then set_finish (iter_decr b (end_ b)) b else b.

Definition pop_front (b : CircularBuffer) : CircularBuffer :=
  if negb (empty b) then set_start (iter_incr b (begin b)) b else b.

(** ** Library algorithms run on cursors

    [std::__relocate_a] on two cursors is the generic loop
    [for (; first != last; ++first, ++cur)]: it reads the source through the
    cursor and fills the destination block [dst] from slot [cur] on.  It
    returns the destination and the slot it stopped at. *)
Fixpoint relocate_a (fuel : nat) (b : CircularBuffer) (first last : Z)
    (dst : list Tp) (cur : nat) : outcome (list Tp * nat) :=
  match fuel with
  | O => OutOfFuel
  | S fuel =>
      if decide (first = last) then mret (dst, cur)
      else
        v ← load first b;
        if decide (cur < length dst)%nat then
          relocate_a fuel b (iter_incr b first) last (<[cur := v]> dst) (S cur)
        else Undefined
  end.

(** [std::__uninitialized_default_n_a] and [std::__uninitialized_fill_n_a] on
    a cursor, in their generic form [for (; n > 0; --n, ++cur)]: [n] slots
    are constructed from [v] at successive positions; the cursor reached is
    returned.  The library picks another form for trivial element types such
    as [int]: [std::fill_n], which finds its end by the cursor's [operator+]
    (the offset taken modulo [size()], a division by zero on an empty
    buffer) and need not reach [n] slots.  The loop below is used by the two
    forms of [resize] for [size() < n <= capacity()] only, and no theorem of
    this development goes through that branch. *)
Fixpoint uninitialized_fill_n_a (n : nat) (v : Tp) (cur : Z)
    (b : CircularBuffer) : outcome (Z * CircularBuffer) :=
  match n with
  | O => mret (cur, b)
  | S n =>
      b ← store cur v b;
      uninitialized_fill_n_a n v (iter_incr b cur) b
  end.

(** The same two algorithms on a plain pointer into a fresh block: the slots
    [i], ..., [i + n - 1] of [blk] are constructed from [v]. *)
Definition fill_block (blk : list Tp) (i n : nat) (v : Tp) : list Tp :=
  take i blk ++ replicate n v ++ drop (i + n) blk.

(** A cursor loop of the container visits at most every slot once before it
    meets the sentinel; this bounds the loops of the model. *)
Definition loop_fuel (b : CircularBuffer) : nat := S (S (length (storage b))).

(** ** Private helpers *)

Definition _erase_ending (n : Z) (b : CircularBuffer) : outcome CircularBuffer :=
  new_ending ← iter_minus b (end_ b) (to_difference_type n);
  mret (set_finish new_ending b).

Definition _reallocate_storage_default (new_size : Z) (b : CircularBuffer)
    : outcome CircularBuffer :=
  if decide (size b ≤ new_size) then
    let new_start := allocate new_size in
    let blk := replicate (Z.to_nat new_size) indeterminate in
    let blk := fill_block blk (Z.to_nat (size b)) (Z.to_nat (new_size - size b)) dflt in
    '(blk, cur) ← relocate_a (loop_fuel b) b (begin b) (end_ b) blk 0;
    mret (mkBuffer new_start (new_start + Z.of_nat cur) new_start
            (new_start + new_size) blk)
  else
    let new_start := allocate new_size in
    let blk := replicate (Z.to_nat new_size) indeterminate in
    last ← iter_plus b (begin b) (to_difference_type new_size);
    '(blk, cur) ← relocate_a (loop_fuel b) b (begin b) last blk 0;
    mret (mkBuffer new_start (new_start + Z.of_nat cur) new_start
            (new_start + new_size) blk).

Definition _reallocate_storage_filled (new_size : Z) (value : Tp)
    (b : CircularBuffer) : outcome CircularBuffer :=
  if decide (size b ≤ new_size) then
    let new_start := allocate new_size in
    let blk := replicate (Z.to_nat new_size) indeterminate in
    let blk := fill_block blk (Z.to_nat (size b)) (Z.to_nat (new_size - size b)) value in
    '(blk, _) ← relocate_a (loop_fuel b) b (begin b) (end_ b) blk 0;
    mret (mkBuffer new_start (new_start + new_size) new_start
            (new_start + new_size) blk)
  else
    let new_start := allocate new_size in
    let blk := replicate (Z.to_nat new_size) indeterminate in
    last ← iter_plus b (begin b) (to_difference_type new_size);
    '(blk, cur) ← relocate_a (loop_fuel b) b (begin b) last blk 0;
    mret (mkBuffer new_start (new_start + Z.of_nat cur) new_start
            (new_start + new_size) blk).

(** ** resize, reserve, shrink_to_fit *)

Definition resize (new_size : Z) (b : CircularBuffer) : outcome CircularBuffer :=
  if decide (max_size < new_size) then
    Throws (length_error "resizing overheads maximum size")
  else if decide (size b < new_size) then
    if decide (capacity b < new_size) then
      _reallocate_storage_default new_size b
    else
      '(cur, b) ← uninitialized_fill_n_a (Z.to_nat (new_size - size b)) dflt (end_ b) b;
      mret (set_finish cur b)
  else if decide (new_size ≠ 0) then
    _erase_ending (to_size_t (size b - new_size)) b
  else mret b.

Definition resize_value (new_size : Z) (value : Tp) (b : CircularBuffer)
    : outcome CircularBuffer :=
  if decide (max_size < new_size) then
    Throws (length_error "resizing overheads maximum size")
  else if decide (size b < new_size) then
    if decide (capacity b < new_size) then
      _reallocate_storage_filled new_size value b
    else
      '(cur, b) ← uninitialized_fill_n_a (Z.to_nat (new_size - size b)) value (end_ b) b;
      mret (set_finish cur b)
  else
    _erase_ending (to_size_t (size b - new_size)) b.

Definition reserve (n : Z) (b : CircularBuffer) : outcome CircularBuffer :=
  if decide (max_size < n) then
    Throws (length_error "reserving overheads capacity")
  else if decide (capacity b < n) then
    _reallocate_storage_default n b
  else mret b.

Definition shrink_to_fit (b : CircularBuffer) : outcome CircularBuffer :=
  _reallocate_storage_default (size b) b.

(** ** assign from a range

    The source range is the list [src]; the loop
    [for (; _first != _last && cur != end_it; ++cur, ++_first)] returns what
    is left of the source together with the buffer. *)
Fixpoint assign_loop (src : list Tp) (cur end_it : Z) (b : CircularBuffer)
    : outcome (list Tp * CircularBuffer) :=
  match src with
  | [] => mret ([], b)
  | x :: rest =>
      if decide (cur = end_it) then mret (src, b)
      else
        b ← store cur x b;
        assign_loop rest (iter_incr b cur) end_it b
  end.

Definition assign (src : list Tp) (b : CircularBuffer) : outcome CircularBuffer :=
  if negb (empty b) then
    let cur := begin b in
    let end_it := end_ b in
    let n := Z.of_nat (length src) in
    if decide (size b = 0) then Undefined
    else
      let int_part := to_size_t n `div` size b in
      '(src, b) ←
        (if decide (int_part ≠ 0) then
           assign_loop (drop (Z.to_nat ((int_part - 1) * size b)) src) cur end_it b
         else mret (src, b));
      let cur := begin b in
      '(_, b) ← assign_loop src cur end_it b;
      mret b
  else mret b.

(** ** erase *)

(** [for (auto cur = begin(); cur != _pos; cur++) std::swap( *cur, *(cur + 1))] *)
Fixpoint erase_swap_up (fuel : nat) (cur pos : Z) (b : CircularBuffer)
    : outcome CircularBuffer :=
  match fuel with
  | O => OutOfFuel
  | S fuel =>
      if decide (cur = pos) then mret b
      else
        next ← iter_plus b cur 1;
        x ← load cur b;
        y ← load next b;
        b ← store cur y b;
        b ← store next x b;
        erase_swap_up fuel (iter_incr b cur) pos b
  end.

(** [for (auto cur = _pos; cur != st_post; cur--) std::swap( *cur, *(cur - 1))] *)
Fixpoint erase_swap_down (fuel : nat) (cur st_post : Z) (b : CircularBuffer)
    : outcome CircularBuffer :=
  match fuel with
  | O => OutOfFuel
  | S fuel =>
      if decide (cur = st_post) then mret b
      else
        prev ← iter_minus b cur 1;
        x ← load cur b;
        y ← load prev b;
        b ← store cur y b;
        b ← store prev x b;
        erase_swap_down fuel (iter_decr b cur) st_post b
  end.

Definition erase (pos : Z) (b : CircularBuffer) : outcome (Z * CircularBuffer) :=
  if decide (iter_diff b (end_ b) pos ≤ iter_diff b pos (begin b)) then
    b ← erase_swap_up (loop_fuel b) (begin b) pos b;
    if decide (finish b = end_of_storage b) then
      mret (pos, set_finish (iter_decr b (end_ b)) b)
    else mret (pos, set_finish (finish b - 1) b)
  else
    let st_post := begin b in
    b ← erase_swap_down (loop_fuel b) pos st_post b;
    if decide (finish b = end_of_storage b) then
      let b := set_finish (start b) b in
      mret (pos, set_start (iter_incr b (begin b)) b)
    else if decide (start b ≠ end_of_storage b - 1) then
      let b := set_finish (start b) b in
      mret (pos, set_start (start b + 1) b)
    else mret (pos, set_start (start_of_storage b) b).

(** ** Observing the content

    [for (auto i : buf)], as [print_buffer] of the demonstration driver
    runs it: the values met from [begin()] up to [end()], by [!=], [*] and
    [++]. *)
Fixpoint traverse (fuel : nat) (b : CircularBuffer) (first last : Z)
    : outcome (list Tp) :=
  match fuel with
  | O => OutOfFuel
  | S fuel =>
      if decide (first = last) then mret []
      else
        v ← load first b;
        l ← traverse fuel b (iter_incr b first) last;
        mret (v :: l)
  end.

Definition elements (b : CircularBuffer) : outcome (list Tp) :=
  traverse (loop_fuel b) b (begin b) (end_ b).

(** ** Well-formed states

    The markers lie inside the block, the front marker on a slot unless the
    block has none, and the block is a real one: it has as many slots as
    the markers say and no more than a [difference_type] can count. *)
Definition wf (b : CircularBuffer) : Prop :=
  length (storage b) = Z.to_nat (end_of_storage b - start_of_storage b)
  ∧ end_of_storage b - start_of_storage b ≤ PTRDIFF_MAX
  ∧ start_of_storage b ≤ start b ≤ end_of_storage b
  ∧ start_of_storage b ≤ finish b ≤ end_of_storage b
  ∧ (start b = end_of_storage b → start_of_storage b = end_of_storage b).

(** The address of the slot that holds the element at logical position [i]. *)
Definition slot (b : CircularBuffer) (i : Z) : Z :=
  if decide (start b + i < end_of_storage b) then start b + i
  else start b + i - (end_of_storage b - start_of_storage b).

(** The cursor at logical position [i]: the slot, or [end()] after the last. *)
Definition cursor (b : CircularBuffer) (i : Z) : Z :=
  if decide (i = size b) then finish b else slot b i.

(** The window in closed form: the segments of the block between the
    markers, in the three shapes full, contiguous and wrapped. *)
Definition window (b : CircularBuffer) : list Tp :=
  let s := Z.to_nat (start b - start_of_storage b) in
  let f := Z.to_nat (finish b - start_of_storage b) in
  if decide (finish b = end_of_storage b) then
    drop s (storage b) ++ take s (storage b)
  else if decide (start b ≤ finish b) then
    take (f - s) (drop s (storage b))
  else drop s (storage b) ++ take f (storage b).

(** ** The other constructors, and clear *)

(** [CircularBuffer()]: the four markers are null pointers. *)
Definition CircularBuffer_default : CircularBuffer := mkBuffer 0 0 0 0 [].

(** [explicit CircularBuffer(size_type _n)]: a block of [_n] slots, none of
    them constructed. *)
Definition CircularBuffer_n (n : Z) : CircularBuffer :=
  let p := allocate n in
  mkBuffer p p p (p + n) (replicate (Z.to_nat n) indeterminate).

(** [explicit CircularBuffer(size_type _n, const_reference _value)] *)
Definition CircularBuffer_n_value (n : Z) (value : Tp) : CircularBuffer :=
  let p := allocate n in
  mkBuffer p (p + n) p (p + n)
    (fill_block (replicate (Z.to_nat n) indeterminate) 0 (Z.to_nat n) value).

(** [CircularBuffer(InputIterator _first, InputIterator _last)] *)
Definition CircularBuffer_range (src : list Tp) : outcome CircularBuffer :=
  assign src CircularBuffer_default.

(** [clear]: the block is given back and the markers are null again. *)
Definition clear (b : CircularBuffer) : CircularBuffer := mkBuffer 0 0 0 0 [].

(** ** assign of a count and a value

    [for (; _filled != _n && cur != end_it; ++cur, ++_filled)], counted
    down. *)
Fixpoint assign_fill_loop (n : nat) (value : Tp) (cur end_it : Z)
    (b : CircularBuffer) : outcome CircularBuffer :=
  match n with
  | O => mret b
  | S n =>
      if decide (cur = end_it) then mret b
      else
        b ← store cur value b;
        assign_fill_loop n value (iter_incr b cur) end_it b
  end.

Definition assign_n_value (n : Z) (value : Tp) (b : CircularBuffer)
    : outcome CircularBuffer :=
  assign_fill_loop (Z.to_nat n) value (begin b) (end_ b) b.

(** ** Comparison of cursors *)

Definition iter_eq (left right : Z) : bool := bool_decide (left = right).

Definition iter_ne (left right : Z) : bool := bool_decide (left ≠ right).

Definition iter_gt (b : CircularBuffer) (left right : Z) : bool :=
  if decide (start b ≤ finish b
             ∨ (left ≤ finish b ∧ right ≤ finish b)
             ∨ (start b ≤ left ∧ start b ≤ right)) then
    bool_decide (right < left)
  else bool_decide (left < right).

Definition iter_lt (b : CircularBuffer) (left right : Z) : bool :=
  if decide (start b ≤ finish b
             ∨ (left ≤ finish b ∧ right ≤ finish b)
             ∨ (start b ≤ left ∧ start b ≤ right)) then
    bool_decide (left < right)
  else bool_decide (right < left).

Definition iter_ge (b : CircularBuffer) (left right : Z) : bool :=
  if decide (start b ≤ finish b
             ∨ (left ≤ finish b ∧ right ≤ finish b)
             ∨ (start b ≤ left ∧ start b ≤ right)) then
    bool_decide (right ≤ left)
  else bool_decide (left ≤ right).

Definition iter_le (b : CircularBuffer) (left right : Z) : bool :=
  if decide (start b ≤ finish b
             ∨ (left ≤ finish b ∧ right ≤ finish b)
             ∨ (start b ≤ left ∧ start b ≤ right)) then
    bool_decide (left ≤ right)
  else bool_decide (right ≤ left).

(** ** Reverse traversal

    A [std::reverse_iterator] is its base cursor: [*k] reads through a
    decremented copy of the base, [k++] decrements the base, and [k < rend]
    is [k.base() > rend.base()], or [rend.base() < k.base()] in older
    library versions: the same test, as the cursors' comparison is
    symmetric in its operands.  [rbegin()] has the base [end()] and
    [rend()] the base [begin()]. *)
Definition rbegin (b : CircularBuffer) : Z := end_ b.
Definition rend (b : CircularBuffer) : Z := begin b.

(** [for (auto k = a.rbegin(); k < a.rend(); k++)], the values [*k] met, as
    [ReverseTest] runs it. *)
Fixpoint traverse_reverse (fuel : nat) (b : CircularBuffer) (k rend : Z)
    : outcome (list Tp) :=
  match fuel with
  | O => OutOfFuel
  | S fuel =>
      if iter_gt b k rend then
        v ← load (iter_decr b k) b;
        l ← traverse_reverse fuel b (iter_decr b k) rend;
        mret (v :: l)
      else mret []
  end.

Definition reverse_elements (b : CircularBuffer) : outcome (list Tp) :=
  traverse_reverse (loop_fuel b) b (rbegin b) (rend b).

(** ** A run of push_back calls

    [for (auto v : l) b.push_back(v);] *)
Fixpoint push_back_all (l : list Tp) (b : CircularBuffer)
    : outcome CircularBuffer :=
  match l with
  | [] => mret b
  | v :: l =>
      b ← push_back v b;
      push_back_all l b
  end.

(** ** insert of one value

    The loop of the first branch runs on reverse iterators, each kept as its
    base cursor: [cur + 1] has the base [cur.base() - 1], and [*cur] reads
    through a decremented copy of the base. *)
Fixpoint insert_swap_back (fuel : nat) (cur r_pos : Z) (b : CircularBuffer)
    : outcome CircularBuffer :=
  match fuel with
  | O => OutOfFuel
  | S fuel =>
      if decide (cur = r_pos) then mret b
      else
        next ← iter_minus b cur 1;
        x ← load (iter_decr b cur) b;
        y ← load (iter_decr b next) b;
        b ← store (iter_decr b cur) y b;
        b ← store (iter_decr b next) x b;
        insert_swap_back fuel (iter_decr b cur) r_pos b
  end.

(** [for (auto cur = begin(); cur != _pos - 1; ++cur)
      std::swap( *cur, *(cur + 1))] *)
Fixpoint insert_swap_front (fuel : nat) (cur pos : Z) (b : CircularBuffer)
    : outcome CircularBuffer :=
  match fuel with
  | O => OutOfFuel
  | S fuel =>
      stop ← iter_minus b pos 1;
      if decide (cur = stop) then mret b
      else
        next ← iter_plus b cur 1;
        x ← load cur b;
        y ← load next b;
        b ← store cur y b;
        b ← store next x b;
        insert_swap_front fuel (iter_incr b cur) pos b
  end.

(** [insert(const_iterator _pos, const value_type& _value)] *)
Definition insert (pos : Z) (value : Tp) (b : CircularBuffer)
    : outcome CircularBuffer :=
  if decide (iter_diff b (end_ b) pos ≤ iter_diff b pos (begin b)) then
    let b :=
      if decide (finish b = end_of_storage b) then
        set_start (iter_incr b (begin b)) b
      else set_finish (finish b + 1) b in
    b ← insert_swap_back (loop_fuel b) (rbegin b) pos b;
    store pos value b
  else
    let b :=
      if decide (finish b = end_of_storage b) then
        set_start (iter_decr b (end_ b)) b
      else if decide (start b ≠ start_of_storage b) then
        set_start (start b - 1) b
      else set_start (end_of_storage b - 1) b in
    b ← insert_swap_front (loop_fuel b) (begin b) pos b;
    before ← iter_minus b pos 1;
    store before value b.

(** ** Equality of containers

    The element type's [!=] is the negation of a decidable equality. *)
Context `{!EqDecision Tp}.

(** The loop the two operators share: [true] when the loop body returns from
    the operator at a pair of elements that differ, [false] when the loop
    runs to its end. *)
Fixpoint differ_loop (fuel : nat) (left right : CircularBuffer)
    (it_left it_right : Z) : outcome bool :=
  match fuel with
  | O => OutOfFuel
  | S fuel =>
      if iter_lt left it_left (end_ left) then
        x ← load it_left left;
        y ← load it_right right;
        if decide (x ≠ y) then mret true
        else differ_loop fuel left right
               (iter_incr left it_left) (iter_incr right it_right)
      else mret false
  end.

(** [operator==(const CircularBuffer&, const CircularBuffer&)] *)
Definition operator_eq (left right : CircularBuffer) : outcome bool :=
  if decide (size left ≠ size right) then Returns false
  else
    differs ← differ_loop (loop_fuel left) left right (begin left) (begin right);
    Returns (negb differs).

(** [operator!=(const CircularBuffer&, const CircularBuffer&)] *)
Definition operator_ne (left right : CircularBuffer) : outcome bool :=
  if decide (size left ≠ size right) then Returns true
  else
    differs ← differ_loop (loop_fuel left) left right (begin left) (begin right);
    Returns differs.

End Container.

(** ** The instances the tests and the driver use

    [CircularBuffer<int>] on the default allocator.  One buffer is alive at
    a time, so the allocator may hand out the same address every time. *)
#[global] Instance int_Element : Element Z :=
  {| dflt := 0; indeterminate := -1; sizeof_Tp := 4 |}.

#[global] Instance default_Allocator : Allocator :=
  {| allocate := λ _, 4096; alloc_max_size := PTRDIFF_MAX `div` 4 |}.

(** [CircularBuffer<int> b = {1, 2, 1}] of [PushBackTest], [{0, 1, 2, 3, 4}]
    of [PopFrontTest], and two further literal buffers. *)
Definition buf_1_2_1 : CircularBuffer Z := of_list [1; 2; 1].
Definition buf_0_to_4 : CircularBuffer Z := of_list [0; 1; 2; 3; 4].
Definition buf_1_2_3 : CircularBuffer Z := of_list [1; 2; 3].
Definition buf_six : CircularBuffer Z := of_list [11; 12; 13; 14; 15; 16].

(** The source range [{1, ..., 9}] of [AssignTest]. *)
Definition one_to_nine : list Z := [1; 2; 3; 4; 5; 6; 7; 8; 9].

(** [b.pop_back(); b.pop_front(); b.push_back(9);] on [{1, 2, 3}]. *)
Definition pop_pop_push : outcome (CircularBuffer Z) :=
  push_back 9 (pop_front (pop_back buf_1_2_3)).

(** [b.erase(b.begin()); b.erase(b.begin() + 1); b.pop_back(); b.pop_back();]
    on [{1, 2, 3}]. *)
Definition erase_erase_pop_pop : outcome (CircularBuffer Z) :=
  let b := buf_1_2_3 in
  '(_, b) ← erase (begin b) b;
  pos ← iter_plus b (begin b) 1;
  '(_, b) ← erase pos b;
  mret (pop_back (pop_back b)).

(** [{1, 2, 3}] after one and after two calls of [pop_back]: buffers with
    room left; and the one-slot buffer [{5}]. *)
Definition buf_1_2 : CircularBuffer Z := pop_back buf_1_2_3.
Definition buf_1 : CircularBuffer Z := pop_back buf_1_2.
Definition buf_5 : CircularBuffer Z := of_list [5].

(** * Properties *)

Section Properties.

Context {Tp : Type} `{!Element Tp} `{!Allocator}.

Implicit Types (b : CircularBuffer Tp) (i n k : Z) (l src : list Tp).

Lemma to_size_t_small z : 0 ≤ z < 2 ^ 64 → to_size_t z = z.
Proof. intros Hz. unfold to_size_t. now apply Z.mod_small. Qed.

Lemma to_difference_type_small z :
  0 ≤ z ≤ PTRDIFF_MAX → to_difference_type z = z.
Proof.
  unfold to_difference_type, PTRDIFF_MAX. intros Hz.
  rewrite Z.mod_small by lia. case_decide; lia.
Qed.

Lemma capacity_wf b :
  wf b → capacity b = end_of_storage b - start_of_storage b.
Proof.
  unfold wf, capacity, PTRDIFF_MAX. intros (_ & Hmax & Hs & Hf & _).
  apply to_size_t_small. lia.
Qed.

Lemma size_cases b :
  wf b →
  (finish b = end_of_storage b
   ∧ size b = end_of_storage b - start_of_storage b)
  ∨ (finish b ≠ end_of_storage b ∧ start b ≤ finish b
     ∧ size b = finish b - start b)
  ∨ (finish b < start b
     ∧ size b = finish b - start_of_storage b + (end_of_storage b - start b)).
Proof.
  unfold wf, size, PTRDIFF_MAX. intros (_ & Hmax & Hs & Hf & _).
  repeat case_decide; rewrite to_size_t_small by lia; lia.
Qed.

Lemma size_bounds b : wf b → 0 ≤ size b ≤ capacity b.
Proof.
  intros Hwf. rewrite capacity_wf by done.
  destruct (size_cases b Hwf) as [?|[?|?]]; unfold wf in Hwf; lia.
Qed.


Lemma capacity_zero b : wf b → capacity b = 0 → size b = 0.
Proof. intros Hwf Hc. pose proof (size_bounds b Hwf). lia. Qed.

Lemma wf_of_list l :
  Z.of_nat (length l) ≤ PTRDIFF_MAX → wf (of_list l).
Proof. unfold wf, of_list. simpl. lia. Qed.

(** Case analysis on the shape of a well-formed state, for goals about
    markers: full, contiguous or wrapped, then linear arithmetic. *)
Ltac markers Hwf :=
  let Hs := fresh "Hs" in
  pose proof (size_cases _ Hwf) as Hs;
  unfold wf, PTRDIFF_MAX in Hwf;
  unfold cursor, slot, iter_incr, iter_decr, begin, end_ in *; simpl in *;
  repeat case_decide; lia.

(** Projections of an updated state. *)
Ltac simpl_markers :=
  cbn [start finish start_of_storage end_of_storage storage
       set_start set_finish set_storage] in *.

Lemma slot_range b i :
  wf b → 0 ≤ i < size b →
  start_of_storage b ≤ slot b i < end_of_storage b.
Proof. intros Hwf Hi. markers Hwf. Qed.

Lemma slot_ne_finish b i : wf b → 0 ≤ i < size b → slot b i ≠ finish b.
Proof. intros Hwf Hi. markers Hwf. Qed.

Lemma slot_inj b i j :
  wf b → 0 ≤ i < size b → 0 ≤ j < size b → slot b i = slot b j → i = j.
Proof. intros Hwf Hi Hj. markers Hwf. Qed.

Lemma cursor_0 b : wf b → cursor b 0 = start b.
Proof. intros Hwf. markers Hwf. Qed.

Lemma cursor_size b : cursor b (size b) = finish b.
Proof. unfold cursor. by rewrite decide_True. Qed.

Lemma cursor_slot b i : i ≠ size b → cursor b i = slot b i.
Proof. intros. unfold cursor. by rewrite decide_False. Qed.

Lemma incr_slot b i :
  wf b → 0 ≤ i < size b → iter_incr b (slot b i) = cursor b (i + 1).
Proof. intros Hwf Hi. markers Hwf. Qed.

Lemma window_length b : wf b → length (window b) = Z.to_nat (size b).
Proof.
  intros Hwf. pose proof (size_cases _ Hwf) as Hs.
  destruct Hwf as (Hlen & Hmax & Hst & Hfi & Hz).
  unfold window. repeat case_decide;
    rewrite ?length_app, ?length_take, ?length_drop; lia.
Qed.

Lemma window_lookup b i :
  wf b → 0 ≤ i < size b →
  window b !! Z.to_nat i
  = storage b !! Z.to_nat (slot b i - start_of_storage b).
Proof.
  intros Hwf Hi. pose proof (size_cases _ Hwf) as Hs.
  destruct Hwf as (Hlen & Hmax & Hst & Hfi & Hz).
  unfold window, slot. repeat case_decide; try lia.
  - rewrite lookup_app_l by (rewrite length_drop; lia).
    rewrite lookup_drop. f_equal. lia.
  - rewrite lookup_app_r by (rewrite length_drop; lia).
    rewrite length_drop, lookup_take_lt by lia. f_equal. lia.
  - rewrite lookup_take_lt by lia. rewrite lookup_drop. f_equal. lia.
  - rewrite lookup_app_l by (rewrite length_drop; lia).
    rewrite lookup_drop. f_equal. lia.
  - rewrite lookup_app_r by (rewrite length_drop; lia).
    rewrite length_drop, lookup_take_lt by lia. f_equal. lia.
Qed.


Lemma load_slot b i :
  wf b → 0 ≤ i < size b →
  ∃ v, window b !! Z.to_nat i = Some v ∧ load (slot b i) b = Returns v.
Proof.
  intros Hwf Hi. pose proof (slot_range b i Hwf Hi) as Hr.
  rewrite window_lookup by done. unfold load. rewrite decide_True by done.
  destruct (lookup_lt_is_Some_2 (storage b)
              (Z.to_nat (slot b i - start_of_storage b))) as [v Hv].
  { destruct Hwf as (Hlen & _). lia. }
  exists v. by rewrite Hv.
Qed.

Lemma traverse_cursor fuel : ∀ b i,
  wf b → 0 ≤ i ≤ size b → (Z.to_nat (size b - i) < fuel)%nat →
  traverse fuel b (cursor b i) (finish b)
  = Returns (drop (Z.to_nat i) (window b)).
Proof.
  induction fuel as [|fuel IH]; intros b i Hwf Hi Hfuel; [lia|].
  simpl. destruct (decide (i = size b)) as [->|Hne].
  - rewrite cursor_size, decide_True by done.
    rewrite drop_ge; [done|]. rewrite window_length by done. lia.
  - rewrite cursor_slot by done.
    rewrite decide_False by (apply slot_ne_finish; [done|lia]).
    destruct (load_slot b i) as (v & Hv & ->); [done|lia|]. simpl.
    rewrite incr_slot by (done || lia).
    rewrite IH by (done || lia). simpl.
    rewrite (drop_S _ v (Z.to_nat i)) by done.
    do 3 f_equal. lia.
Qed.

Lemma loop_fuel_enough b : wf b → (Z.to_nat (size b) < loop_fuel b)%nat.
Proof.
  intros Hwf. pose proof (size_bounds b Hwf) as Hb.
  rewrite capacity_wf in Hb by done.
  destruct Hwf as (Hlen & _). unfold loop_fuel. lia.
Qed.

Lemma elements_window b : wf b → elements b = Returns (window b).
Proof.
  intros Hwf. unfold elements, begin, end_.
  rewrite <- (cursor_0 b) by done.
  rewrite traverse_cursor; [done|done|..].
  - pose proof (size_bounds b Hwf). lia.
  - rewrite Z.sub_0_r. by apply loop_fuel_enough.
Qed.

Lemma wf_set_storage b l :
  wf b → length l = length (storage b) → wf (set_storage l b).
Proof. unfold wf. simpl. intros (-> & ?) ->. done. Qed.

Lemma store_slot b i x :
  wf b → 0 ≤ i < size b →
  store (slot b i) x b
  = Returns (set_storage
               (<[Z.to_nat (slot b i - start_of_storage b) := x]> (storage b)) b).
Proof.
  intros Hwf Hi. pose proof (slot_range b i Hwf Hi) as Hr.
  unfold store. rewrite decide_True by done.
  rewrite decide_True; [done|]. destruct Hwf as (Hlen & _). lia.
Qed.

Lemma window_store b i x :
  wf b → 0 ≤ i < size b →
  window (set_storage
            (<[Z.to_nat (slot b i - start_of_storage b) := x]> (storage b)) b)
  = <[Z.to_nat i := x]> (window b).
Proof.
  intros Hwf Hi.
  set (b' := set_storage _ b).
  assert (Hwf' : wf b').
  { apply wf_set_storage; [done|]. by rewrite length_insert. }
  pose proof (slot_range b i Hwf Hi) as Hr.
  apply list_eq. intros j.
  destruct (decide (j < Z.to_nat (size b))%nat) as [Hj|Hj].
  - replace j with (Z.to_nat (Z.of_nat j)) by lia.
    rewrite (window_lookup b') by (done || (change (size b') with (size b); lia)).
    change (slot b' (Z.of_nat j)) with (slot b (Z.of_nat j)). simpl.
    destruct (decide (Z.of_nat j = i)) as [<-|Hji].
    + rewrite !list_lookup_insert_eq; [done|..].
      * rewrite window_length by done. lia.
      * destruct Hwf as (Hlen & _). lia.
    + pose proof (slot_range b (Z.of_nat j) Hwf ltac:(lia)) as Hrj.
      rewrite !list_lookup_insert_ne.
      * rewrite <- window_lookup by (done || lia). done.
      * lia.
      * intros Heq. apply Hji. apply (slot_inj b); [done|lia|lia|lia].
  - rewrite !lookup_ge_None_2; [done|..].
    + rewrite length_insert, window_length by done. lia.
    + rewrite window_length by done. change (size b') with (size b). lia.
Qed.


Lemma assign_loop_cursor src : ∀ b i,
  wf b → 0 ≤ i ≤ size b →
  ∃ st,
    assign_loop src (cursor b i) (finish b) b
    = Returns (drop (Z.to_nat (size b - i)) src, set_storage st b)
    ∧ length st = length (storage b)
    ∧ window (set_storage st b)
      = list_inserts (Z.to_nat i) (take (Z.to_nat (size b - i)) src) (window b).
Proof.
  induction src as [|x rest IH]; intros b i Hwf Hi.
  - exists (storage b). rewrite drop_nil, take_nil. simpl.
    by destruct b.
  - simpl. destruct (decide (i = size b)) as [->|Hne].
    + exists (storage b). rewrite cursor_size, decide_True by done.
      rewrite Z.sub_diag. simpl. by destruct b.
    + rewrite cursor_slot by done.
      rewrite decide_False by (apply slot_ne_finish; [done|lia]).
      rewrite store_slot by (done || lia). simpl.
      set (b1 := set_storage _ b).
      assert (Hwf1 : wf b1).
      { apply wf_set_storage; [done|]. by rewrite length_insert. }
      change (iter_incr b1 (slot b i)) with (iter_incr b (slot b i)).
      rewrite incr_slot by (done || lia).
      destruct (IH b1 (i + 1) Hwf1) as (st & Hrun & Hlen & Hwin).
      { change (size b1) with (size b). lia. }
      change (cursor b1 (i + 1)) with (cursor b (i + 1)) in Hrun.
      change (finish b1) with (finish b) in Hrun.
      change (size b1) with (size b) in Hrun, Hwin.
      change (set_storage st b1) with (set_storage st b) in Hrun, Hwin.
      exists st. rewrite Hrun. split; [|split].
      * replace (Z.to_nat (size b - i))
          with (S (Z.to_nat (size b - (i + 1)))) by lia. done.
      * rewrite Hlen. subst b1. simpl. by rewrite length_insert.
      * rewrite Hwin. subst b1. rewrite window_store by (done || lia).
        replace (Z.to_nat (size b - i))
          with (S (Z.to_nat (size b - (i + 1)))) by lia.
        simpl. replace (Z.to_nat (i + 1)) with (S (Z.to_nat i)) by lia.
        symmetry. apply list_insert_inserts_lt. lia.
Qed.

(** A whole pass of the copy loop from [begin()]. *)
Lemma assign_loop_begin src b :
  wf b →
  ∃ st,
    assign_loop src (begin b) (end_ b) b
    = Returns (drop (Z.to_nat (size b)) src, set_storage st b)
    ∧ length st = length (storage b)
    ∧ window (set_storage st b)
      = list_inserts 0 (take (Z.to_nat (size b)) src) (window b).
Proof.
  intros Hwf. pose proof (size_bounds b Hwf) as Hb.
  destruct (assign_loop_cursor src b 0 Hwf) as (st & Hrun & Hlen & Hwin); [lia|].
  rewrite cursor_0, Z.sub_0_r in Hrun by done. rewrite Z.sub_0_r in Hwin.
  by exists st.
Qed.

Lemma list_inserts_0_prefix l src :
  (length src ≤ length l)%nat →
  list_inserts 0 src l = src ++ drop (length src) l.
Proof.
  intros Hle. rewrite <- (take_drop (length src) l) at 1.
  apply list_inserts_0_r. rewrite length_take. lia.
Qed.


Lemma size_nonempty b : wf b → empty b = false → 0 < size b.
Proof.
  intros Hwf He. unfold empty in He. apply bool_decide_eq_false in He.
  markers Hwf.
Qed.

(** C4 (amended).  On a well-formed buffer (both markers inside the block,
    the front marker on one of its slots) for which [empty()] is false,
    [assign] of a range of pointers longer than the capacity leaves size and
    capacity as they were and stores the last [size()] elements of the
    source, which are the last [capacity()] ones when the buffer is full.
    With [n] the length of the source, [s] the size and [r = n mod s], the
    window reads: the last [r] source elements, then the [s - r] elements
    before them. *)
Theorem assign_longer_than_capacity src b :
  wf b → empty b = false →
  capacity b < Z.of_nat (length src) ≤ PTRDIFF_MAX →
  let n := length src in
  let s := Z.to_nat (size b) in
  let r := (n `mod` s)%nat in
  ∃ b',
    assign src b = Returns b'
    ∧ size b' = size b
    ∧ capacity b' = capacity b
    ∧ elements b'
      = Returns (drop (n - r) src ++ take (s - r) (drop (n - s) src)).
Proof.
  intros Hwf He Hn n s r.
  pose proof (size_nonempty b Hwf He) as Hpos.
  pose proof (size_bounds b Hwf) as Hb.
  assert (Hs : size b = Z.of_nat s) by lia.
  assert (Hs0 : (0 < s)%nat) by lia.
  assert (Hsn : (s ≤ n)%nat) by lia.
  pose proof (Nat.div_mod_eq n s) as Hdm. fold r in Hdm.
  pose proof (Nat.mod_upper_bound n s ltac:(lia)) as Hr. fold r in Hr.
  set (q := (n `div` s)%nat) in *.
  assert (Hq : (1 ≤ q)%nat).
  { destruct q; [simpl in Hdm; lia|lia]. }
  assert (Hqs : (s * q = n - r)%nat) by lia.
  assert (Hge : (s ≤ n - r)%nat) by nia.
  assert (Hq1 : (s * (q - 1) = n - r - s)%nat).
  { rewrite Nat.mul_sub_distr_l. lia. }
  unfold assign. rewrite He. simpl negb. cbv iota.
  rewrite decide_False by lia.
  rewrite to_size_t_small by (unfold PTRDIFF_MAX in Hn; lia).
  fold n. rewrite Hs, <- Nat2Z.inj_div. fold q.
  rewrite decide_True by lia.
  replace (Z.to_nat ((Z.of_nat q - 1) * Z.of_nat s)) with (n - r - s)%nat by nia.
  destruct (assign_loop_begin (drop (n - r - s) src) b Hwf)
    as (st1 & Hrun1 & Hlen1 & Hwin1).
  rewrite Hrun1. simpl.
  set (b1 := set_storage st1 b) in *.
  assert (Hwf1 : wf b1) by (by apply wf_set_storage).
  destruct (assign_loop_begin (drop (Z.to_nat (size b)) (drop (n - r - s) src)) b1 Hwf1)
    as (st2 & Hrun2 & Hlen2 & Hwin2).
  change (end_ b1) with (end_ b) in Hrun2.
  change (begin b1) with (start b) in Hrun2.
  rewrite Hrun2. simpl.
  change (size b1) with (size b) in Hwin2.
  change (set_storage st2 b1) with (set_storage st2 b) in *.
  set (b2 := set_storage st2 b) in *.
  assert (Hwf2 : wf b2).
  { apply wf_set_storage; [done|]. by rewrite Hlen2. }
  exists b2. split; [done|]. split; [by rewrite <- Hs|]. split; [done|].
  rewrite elements_window by done. f_equal.
  rewrite Hwin2, Hwin1. fold s.
  rewrite drop_drop.
  replace (n - r - s + s)%nat with (n - r)%nat by lia.
  rewrite (take_ge (drop (n - r) src)) by (rewrite length_drop; lia).
  rewrite (list_inserts_0_prefix (window b)).
  2:{ rewrite length_take, length_drop, window_length by done. lia. }
  rewrite (drop_ge (window b)).
  2:{ rewrite length_take, length_drop, window_length by done. lia. }
  rewrite app_nil_r.
  rewrite list_inserts_0_prefix.
  2:{ rewrite length_take, !length_drop. lia. }
  f_equal. rewrite length_drop.
  replace (n - (n - r))%nat with r by lia.
  rewrite (take_drop_commute _ (s - r) (n - s)).
  replace (n - s + (s - r))%nat with (n - r)%nat by lia.
  rewrite take_drop_commute.
  replace (n - r - s + s)%nat with (n - r)%nat by lia.
  rewrite drop_drop. f_equal. lia.
Qed.


(** *** Indexed access *)

Lemma to_size_t_to_difference_type z :
  0 ≤ z < 2 ^ 64 → to_size_t (to_difference_type z) = z.
Proof.
  intros Hz. unfold to_size_t, to_difference_type.
  rewrite (Z.mod_small z) by lia. case_decide.
  - apply Z.mod_small. lia.
  - replace (z - 2 ^ 64) with (z + (-1) * 2 ^ 64) by lia.
    rewrite Z.mod_add by lia. apply Z.mod_small. lia.
Qed.

Lemma mod_size_wf b offset :
  wf b → 0 < size b →
  mod_size b offset = Returns (to_size_t offset `mod` size b).
Proof.
  intros Hwf Hpos. unfold mod_size. rewrite decide_False by lia.
  pose proof (size_bounds b Hwf) as Hb. rewrite capacity_wf in Hb by done.
  pose proof (Z.mod_pos_bound (to_size_t offset) (size b) Hpos).
  rewrite to_difference_type_small; [done|].
  destruct Hwf as (_ & Hmax & _). lia.
Qed.

Lemma iter_at_begin b offset :
  wf b → 0 < size b →
  iter_at b (begin b) offset
  = load (slot b (to_size_t offset `mod` size b)) b.
Proof.
  intros Hwf Hpos. unfold iter_at. rewrite mod_size_wf by done. simpl.
  unfold slot, begin. repeat case_decide; try lia; f_equal; lia.
Qed.

(** C7 (amended).  On a well-formed, non-empty buffer [at(k)] returns
    normally for every index [k]: it yields the element at the logical
    position [k mod size()], which is position [k] when [k < size()].  No
    range failure is reported. *)
Theorem at_modulo b k :
  wf b → 0 < size b → 0 ≤ k < 2 ^ 64 →
  ∃ l x,
    elements b = Returns l
    ∧ l !! Z.to_nat (k `mod` size b) = Some x
    ∧ at_ b k = Returns x.
Proof.
  intros Hwf Hpos Hk.
  pose proof (Z.mod_pos_bound k (size b) Hpos) as Hj.
  destruct (load_slot b (k `mod` size b) Hwf Hj) as (x & Hx & Hload).
  exists (window b), x. split; [by apply elements_window|]. split; [done|].
  unfold at_. rewrite iter_at_begin by done.
  by rewrite to_size_t_to_difference_type.
Qed.


(** *** Moving the back marker *)

(** Two well-formed states on the same block with the same front marker:
    the shorter window is a prefix of the longer one. *)
Lemma window_prefix b b' :
  wf b → wf b' →
  start b' = start b → start_of_storage b' = start_of_storage b →
  end_of_storage b' = end_of_storage b → storage b' = storage b →
  size b' ≤ size b →
  window b' = take (Z.to_nat (size b')) (window b).
Proof.
  intros Hwf Hwf' Hst Hsos Heos Hsto Hle.
  pose proof (size_bounds b' Hwf') as Hb'.
  apply list_eq. intros j.
  destruct (decide (j < Z.to_nat (size b'))%nat) as [Hj|Hj].
  - rewrite lookup_take_lt by done.
    replace j with (Z.to_nat (Z.of_nat j)) by lia.
    rewrite !window_lookup by (done || lia).
    unfold slot. by rewrite Hst, Hsos, Heos, Hsto.
  - rewrite lookup_take_ge by lia.
    apply lookup_ge_None_2. rewrite window_length by done. lia.
Qed.

Lemma set_finish_slot b n :
  wf b → 0 ≤ n < size b →
  wf (set_finish (slot b n) b) ∧ size (set_finish (slot b n) b) = n.
Proof.
  intros Hwf Hn. pose proof (slot_range b n Hwf ltac:(lia)) as Hr.
  pose proof (size_cases _ Hwf) as Hs.
  assert (Hwf' : wf (set_finish (slot b n) b)).
  { unfold wf in *. simpl. lia. }
  split; [done|].
  pose proof (size_cases _ Hwf') as Hs'. simpl in Hs'.
  unfold wf, PTRDIFF_MAX in Hwf. unfold slot in *.
  repeat case_decide; lia.
Qed.

Lemma erase_ending_slot b n :
  wf b → 0 < n < size b →
  _erase_ending (to_size_t (size b - n)) b = Returns (set_finish (slot b n) b).
Proof.
  intros Hwf Hn. pose proof (size_bounds b Hwf) as Hb.
  rewrite capacity_wf in Hb by done.
  assert (Hmax : end_of_storage b - start_of_storage b ≤ PTRDIFF_MAX)
    by (by destruct Hwf as (_ & ? & _)).
  unfold PTRDIFF_MAX in Hmax.
  unfold _erase_ending, iter_minus, iter_minus_assign.
  rewrite to_size_t_small by lia.
  rewrite to_difference_type_small by (unfold PTRDIFF_MAX; lia).
  rewrite decide_False by lia. rewrite decide_False by lia.
  unfold minus_assign_pos. rewrite mod_size_wf by (done || lia). simpl.
  rewrite to_size_t_small by lia. rewrite Z.mod_small by lia.
  assert (Hgoal : ∀ p p' : Z, p = p' →
            (mret p ≫= λ new_ending, mret (set_finish new_ending b))
            = Returns (set_finish p' b)) by (by intros ?? ->).
  unfold end_. pose proof (size_cases _ Hwf) as Hs.
  unfold wf in Hwf. unfold slot.
  repeat case_decide; apply Hgoal; lia.
Qed.

Lemma set_finish_id b : set_finish (finish b) b = b.
Proof. by destruct b. Qed.

Lemma erase_ending_0 b : _erase_ending (to_size_t 0) b = Returns b.
Proof.
  unfold _erase_ending, iter_minus, iter_minus_assign. simpl.
  by rewrite set_finish_id.
Qed.

(** C6 (amended).  On a well-formed buffer and for [0 < n <= size()],
    [resize(n)], with or without a fill value, leaves [size() == n] and the
    capacity as it was, and keeps the first [n] elements of the logical
    sequence in order; [resize(0)] without a fill value leaves the buffer as
    it is. *)
Theorem resize_not_larger b n v :
  wf b → 0 ≤ n ≤ size b → n ≤ max_size (Tp:=Tp) →
  ∃ b',
    resize n b = Returns b'
    ∧ (n = 0 → b' = b)
    ∧ (0 < n →
       resize_value n v b = Returns b'
       ∧ size b' = n
       ∧ capacity b' = capacity b
       ∧ ∃ l, elements b = Returns l
              ∧ elements b' = Returns (take (Z.to_nat n) l)).
Proof.
  intros Hwf Hn Hmax.
  destruct (decide (n = 0)) as [->|Hn0].
  { exists b. unfold resize. rewrite !decide_False by lia.
    split; [done|]. split; [done|lia]. }
  assert (Hsame : resize_value n v b = resize n b).
  { unfold resize, resize_value. rewrite !decide_False by lia.
    by rewrite decide_True. }
  rewrite Hsame. unfold resize.
  rewrite !decide_False by lia. rewrite decide_True by done.
  destruct (decide (n = size b)) as [->|Hlt].
  - exists b. rewrite Z.sub_diag, erase_ending_0.
    split; [done|]. split; [lia|]. intros _.
    do 3 (split; [done|]). exists (window b).
    split; [by apply elements_window|]. rewrite elements_window by done.
    rewrite take_ge; [done|]. rewrite window_length by done. lia.
  - exists (set_finish (slot b n) b).
    rewrite erase_ending_slot by (done || lia).
    destruct (set_finish_slot b n Hwf) as [Hwf' Hsz]; [lia|].
    split; [done|]. split; [lia|]. intros _.
    do 3 (split; [done|]). exists (window b).
    split; [by apply elements_window|]. rewrite elements_window by done.
    rewrite (window_prefix b) by (done || lia). by rewrite Hsz.
Qed.


(** *** Reallocation *)

Lemma relocate_a_cursor fuel : ∀ b i (dst : list Tp) (cur : nat),
  wf b → 0 ≤ i ≤ size b → (Z.to_nat (size b - i) < fuel)%nat →
  (cur + Z.to_nat (size b - i) ≤ length dst)%nat →
  relocate_a fuel b (cursor b i) (finish b) dst cur
  = Returns (list_inserts cur (drop (Z.to_nat i) (window b)) dst,
             (cur + Z.to_nat (size b - i))%nat).
Proof.
  induction fuel as [|fuel IH]; intros b i dst cur Hwf Hi Hfuel Hfit; [lia|].
  simpl. destruct (decide (i = size b)) as [->|Hne].
  - rewrite cursor_size, decide_True by done.
    rewrite drop_ge by (rewrite window_length by done; lia).
    rewrite Z.sub_diag. simpl. do 2 f_equal. lia.
  - rewrite cursor_slot by done.
    rewrite decide_False by (apply slot_ne_finish; [done|lia]).
    destruct (load_slot b i) as (v & Hv & ->); [done|lia|]. simpl.
    rewrite decide_True by lia.
    rewrite incr_slot by (done || lia).
    rewrite IH by (done || rewrite ?length_insert; lia).
    rewrite (drop_S _ v (Z.to_nat i)) by done. simpl.
    replace (Z.to_nat (i + 1)) with (S (Z.to_nat i)) by lia.
    rewrite list_insert_inserts_lt by lia.
    do 2 f_equal. lia.
Qed.

Lemma div_le_self_any (m d : Z) : 0 ≤ m → m `div` d ≤ m.
Proof.
  intros Hm. destruct (Z.lt_trichotomy d 0) as [Hd|[->|Hd]].
  - assert (m `div` d ≤ 0); [|lia].
    Z.to_euclidean_division_equations. nia.
  - rewrite Z.div_0_r. lia.
  - apply Z.div_le_upper_bound; [lia|nia].
Qed.

Lemma max_size_le : max_size (Tp:=Tp) ≤ PTRDIFF_MAX.
Proof.
  unfold max_size.
  pose proof (div_le_self_any PTRDIFF_MAX sizeof_Tp) as Hd.
  unfold PTRDIFF_MAX in *. lia.
Qed.

Lemma fill_block_fresh (n s m : nat) (x y : Tp) :
  (s + m = n)%nat →
  fill_block (replicate n x) s m y = replicate s x ++ replicate m y.
Proof.
  intros <-. unfold fill_block.
  rewrite take_replicate, drop_replicate.
  replace (s + m - (s + m))%nat with 0%nat by lia.
  replace (s `min` (s + m))%nat with s by lia. simpl. by rewrite app_nil_r.
Qed.

Lemma reallocate_storage_default_grow b n :
  wf b → size b ≤ n ≤ PTRDIFF_MAX →
  ∃ b',
    _reallocate_storage_default n b = Returns b'
    ∧ wf b'
    ∧ capacity b' = n
    ∧ size b' = size b
    ∧ window b' = window b.
Proof.
  intros Hwf Hn. pose proof (size_bounds b Hwf) as Hb.
  unfold _reallocate_storage_default. rewrite decide_True by lia.
  rewrite fill_block_fresh by lia.
  unfold begin, end_. rewrite <- (cursor_0 b) by done.
  rewrite relocate_a_cursor; [|done|lia|..]; cycle 1.
  { rewrite Z.sub_0_r. by apply loop_fuel_enough. }
  { rewrite length_app, !length_replicate. lia. }
  simpl. rewrite Z.sub_0_r. change (Z.to_nat 0) with 0%nat. rewrite drop_0.
  rewrite list_inserts_0_r
    by (rewrite window_length, length_replicate by done; lia).
  set (b' := mkBuffer _ _ _ _ _).
  assert (Hwf' : wf b').
  { unfold wf, b'. simpl.
    rewrite length_app, length_replicate, window_length by done.
    unfold PTRDIFF_MAX in *. lia. }
  exists b'. split; [done|]. split; [done|].
  assert (Hsz : size b' = size b).
  { pose proof (size_cases _ Hwf') as Hs'. unfold b' in Hs'. simpl in Hs'.
    fold b' in Hs'. lia. }
  split; [|split; [done|]].
  - rewrite capacity_wf by done. unfold b'. simpl. lia.
  - unfold window at 1. subst b'. cbn [start finish start_of_storage end_of_storage storage].
    rewrite Z.sub_diag. simpl. rewrite drop_0, app_nil_r.
    case_decide as Hfull.
    + replace (Z.to_nat (n - size b)) with 0%nat by lia. simpl.
      by rewrite app_nil_r.
    + rewrite decide_True by lia. change (Z.to_nat 0) with 0%nat.
      rewrite Nat.sub_0_r.
      rewrite take_app_length'; [done|].
      rewrite window_length by done. lia.
Qed.

(** X30.  On a well-formed buffer whose capacity is at most [max_size()]:
    for [n > max_size()], [reserve(n)] and both forms of [resize(n)] leave
    by a length error.  For [n <= capacity()], [reserve(n)] returns the
    buffer as it is.  For [capacity() < n <= max_size()], [reserve(n)] gives
    capacity [n] and keeps the size and the logical sequence. *)
Theorem reserve_resize_length b n v :
  wf b → capacity b ≤ max_size (Tp:=Tp) →
  (max_size (Tp:=Tp) < n →
     reserve n b = Throws (length_error "reserving overheads capacity")
     ∧ resize n b = Throws (length_error "resizing overheads maximum size")
     ∧ resize_value n v b
       = Throws (length_error "resizing overheads maximum size"))
  ∧ (n ≤ capacity b → reserve n b = Returns b)
  ∧ (capacity b < n ≤ max_size (Tp:=Tp) →
     ∃ b',
       reserve n b = Returns b'
       ∧ capacity b' = n
       ∧ size b' = size b
       ∧ ∃ l, elements b = Returns l ∧ elements b' = Returns l).
Proof.
  intros Hwf Hcap. pose proof (size_bounds b Hwf) as Hb.
  pose proof max_size_le as Hmax.
  unfold reserve, resize, resize_value. split; [|split].
  - intros Hn. by rewrite !decide_True by done.
  - intros Hn. by rewrite !decide_False by lia.
  - intros Hn. rewrite decide_False by lia. rewrite decide_True by lia.
    destruct (reallocate_storage_default_grow b n Hwf)
      as (b' & Hrun & Hwf' & Hc & Hs & Hw); [lia|].
    exists b'. do 3 (split; [done|]). exists (window b).
    rewrite !elements_window by done. by rewrite Hw.
Qed.


(** *** pop_back, pop_front *)

Lemma decr_end b :
  wf b → 0 < size b → iter_decr b (end_ b) = slot b (size b - 1).
Proof. intros Hwf Hpos. markers Hwf. Qed.

Lemma pop_empty b : empty b = true → pop_back b = b ∧ pop_front b = b.
Proof. intros He. unfold pop_back, pop_front. by rewrite He. Qed.

Lemma pop_back_nonempty b :
  wf b → empty b = false →
  wf (pop_back b)
  ∧ size (pop_back b) = size b - 1
  ∧ capacity (pop_back b) = capacity b
  ∧ window (pop_back b) = take (Z.to_nat (size b - 1)) (window b).
Proof.
  intros Hwf He. pose proof (size_nonempty b Hwf He) as Hpos.
  unfold pop_back. rewrite He. simpl. rewrite decr_end by done.
  destruct (set_finish_slot b (size b - 1) Hwf) as [Hwf' Hsz]; [lia|].
  do 3 (split; [done|]).
  rewrite (window_prefix b) by (done || lia). by rewrite Hsz.
Qed.

Lemma pop_front_not_full b :
  wf b → empty b = false → finish b ≠ end_of_storage b →
  wf (pop_front b)
  ∧ size (pop_front b) = size b - 1
  ∧ window (pop_front b) = drop 1 (window b).
Proof.
  intros Hwf He Hnf. pose proof (size_nonempty b Hwf He) as Hpos.
  unfold pop_front. rewrite He. simpl. unfold begin.
  rewrite <- (cursor_0 b), cursor_slot, incr_slot by (done || lia).
  set (b' := set_start _ b).
  assert (Hwf' : wf b').
  { unfold b', wf. simpl. pose proof (size_cases _ Hwf) as Hs.
    unfold wf in Hwf. unfold cursor, slot.
    repeat case_decide; lia. }
  assert (Hsz : size b' = size b - 1).
  { pose proof (size_cases _ Hwf') as Hs'. pose proof (size_cases _ Hwf) as Hs.
    change (start b') with (cursor b 1) in Hs'.
    change (finish b') with (finish b) in Hs'.
    change (start_of_storage b') with (start_of_storage b) in Hs'.
    change (end_of_storage b') with (end_of_storage b) in Hs'.
    unfold wf, PTRDIFF_MAX in Hwf.
    unfold cursor, slot in Hs'. repeat case_decide; lia. }
  do 2 (split; [done|]).
  apply list_eq. intros j. rewrite lookup_drop.
  destruct (decide (j < Z.to_nat (size b'))%nat) as [Hj|Hj].
  - replace j with (Z.to_nat (Z.of_nat j)) at 1 by lia.
    replace (1 + j)%nat with (Z.to_nat (Z.of_nat j + 1)) by lia.
    rewrite !window_lookup by (done || lia).
    change (storage b') with (storage b).
    change (start_of_storage b') with (start_of_storage b).
    do 2 f_equal.
    pose proof (size_cases _ Hwf) as Hs. unfold wf, PTRDIFF_MAX in Hwf.
    unfold b', slot, cursor. simpl. unfold slot. repeat case_decide; lia.
  - rewrite !lookup_ge_None_2; [done|..]; rewrite window_length by done; lia.
Qed.

(** On a full buffer [pop_front] moves the front marker and leaves the
    sentinel in [finish]: the size stays the capacity. *)
Lemma pop_front_full b :
  finish b = end_of_storage b → size (pop_front b) = size b.
Proof.
  intros Hf. unfold pop_front. destruct (negb (empty b)); [|done].
  unfold size. simpl. rewrite Hf.
  rewrite !(decide_False (P := _ ∧ _)) by (intros [_ ?]; done).
  by rewrite !(decide_False (P := _ ≠ _)) by (intros ?; done).
Qed.

(** *** Distance of the two ends *)

Lemma iter_diff_end_begin b :
  wf b →
  finish b ≠ end_of_storage b ∨ start b = start_of_storage b →
  iter_diff b (end_ b) (begin b) = size b.
Proof.
  intros Hwf Hcase. pose proof (size_cases _ Hwf) as Hs.
  unfold wf, PTRDIFF_MAX in Hwf. unfold iter_diff, begin, end_.
  repeat case_decide; lia.
Qed.

Lemma iter_diff_end_begin_full b :
  wf b → finish b = end_of_storage b →
  iter_diff b (end_ b) (begin b)
  = size b - (start b - start_of_storage b).
Proof.
  intros Hwf Hcase. pose proof (size_cases _ Hwf) as Hs.
  unfold wf, PTRDIFF_MAX in Hwf. unfold iter_diff, begin, end_.
  repeat case_decide; lia.
Qed.

(** *** The read-only cursor pair *)

Lemma cend_cbegin b :
  cend b = cbegin b
  ∧ traverse (loop_fuel b) b (cbegin b) (cend b) = Returns [].
Proof. split; [done|]. unfold loop_fuel. simpl. by rewrite decide_True. Qed.

(** *** resize beyond the capacity, without a fill value *)

Lemma resize_beyond_capacity b n :
  wf b → capacity b < n ≤ max_size (Tp:=Tp) →
  ∃ b', resize n b = Returns b' ∧ capacity b' = n ∧ size b' = size b.
Proof.
  intros Hwf Hn. pose proof (size_bounds b Hwf) as Hb.
  pose proof max_size_le as Hmax. unfold resize.
  rewrite decide_False by lia. rewrite !decide_True by lia.
  destruct (reallocate_storage_default_grow b n Hwf)
    as (b' & Hrun & Hwf' & Hc & Hs & Hw); [lia|].
  by exists b'.
Qed.


(** *** push_back *)

(** There is room behind the back marker and the next address is a slot of
    the block or, the front being at the block's start, its end. *)
Lemma push_back_room b v :
  wf b → finish b ≠ end_of_storage b → finish b + 1 ≠ start b →
  finish b + 1 ≠ end_of_storage b ∨ start b = start_of_storage b →
  ∃ b',
    push_back v b = Returns b'
    ∧ wf b'
    ∧ size b' = size b + 1
    ∧ capacity b' = capacity b
    ∧ window b' = window b ++ [v].
Proof.
  intros Hwf Hnf Hns Hroom. pose proof (size_cases _ Hwf) as Hs.
  pose proof (size_bounds b Hwf) as Hb.
  unfold push_back. rewrite decide_False by done. cbv zeta.
  set (b1 := set_finish (finish b + 1) b).
  assert (Hwf1 : wf b1).
  { unfold b1, wf in *. simpl. lia. }
  assert (Hsz1 : size b1 = size b + 1).
  { pose proof (size_cases _ Hwf1) as Hs1.
    change (start b1) with (start b) in Hs1.
    change (finish b1) with (finish b + 1) in Hs1.
    change (start_of_storage b1) with (start_of_storage b) in Hs1.
    change (end_of_storage b1) with (end_of_storage b) in Hs1.
    unfold wf in Hwf. lia. }
  assert (Hback : iter_decr b1 (end_ b1) = slot b1 (size b)).
  { unfold iter_decr, end_, slot, b1. simpl. unfold wf in Hwf.
    repeat case_decide; lia. }
  rewrite Hback, store_slot by (done || lia).
  set (b2 := set_storage _ b1).
  assert (Hwf2 : wf b2).
  { apply wf_set_storage; [done|]. by rewrite length_insert. }
  exists b2. do 3 (split; [done|]). split; [done|].
  unfold b2. rewrite window_store by (done || lia).
  rewrite insert_take_drop by (rewrite window_length by done; lia).
  rewrite (drop_ge (window b1)) by (rewrite window_length by done; lia).
  f_equal. rewrite (window_prefix b1 b) by (done || lia). done.
Qed.

(** In a full buffer the window read from the next slot is the old one
    turned by one place. *)
Lemma window_turn b :
  wf b → finish b = end_of_storage b → 2 ≤ size b →
  wf (set_start (slot b 1) b)
  ∧ size (set_start (slot b 1) b) = size b
  ∧ window (set_start (slot b 1) b) = drop 1 (window b) ++ take 1 (window b).
Proof.
  intros Hwf Hfull Hcap. pose proof (size_cases _ Hwf) as Hs.
  pose proof (slot_range b 1 Hwf ltac:(lia)) as Hr.
  set (b' := set_start (slot b 1) b).
  assert (Hwf' : wf b').
  { unfold b', wf in *. simpl. lia. }
  assert (Hsz : size b' = size b).
  { pose proof (size_cases _ Hwf') as Hs'. subst b'. simpl_markers.
    unfold wf in Hwf. lia. }
  split; [done|]. split; [done|]. apply list_eq. intros j.
  destruct (decide (j < Z.to_nat (size b))%nat) as [Hj|Hj].
  - replace j with (Z.to_nat (Z.of_nat j)) at 1 by lia.
    rewrite window_lookup by (done || lia).
    change (storage b') with (storage b).
    change (start_of_storage b') with (start_of_storage b).
    destruct (decide (j < Z.to_nat (size b) - 1)%nat) as [Hj1|Hj1].
    + rewrite lookup_app_l by (rewrite length_drop, window_length by done; lia).
      rewrite lookup_drop.
      replace (1 + j)%nat with (Z.to_nat (Z.of_nat j + 1)) by lia.
      rewrite window_lookup by (done || lia). do 2 f_equal.
      unfold wf, PTRDIFF_MAX in Hwf. unfold b', slot. simpl. unfold slot.
      repeat case_decide; lia.
    + rewrite lookup_app_r by (rewrite length_drop, window_length by done; lia).
      rewrite length_drop, window_length by done.
      replace (j - (Z.to_nat (size b) - 1))%nat with (Z.to_nat 0) by lia.
      rewrite lookup_take_lt by lia.
      rewrite window_lookup by (done || lia). do 2 f_equal.
      unfold wf, PTRDIFF_MAX in Hwf. unfold b', slot. simpl. unfold slot.
      repeat case_decide; lia.
  - rewrite !lookup_ge_None_2; [done|..].
    + rewrite length_app, length_drop, length_take, window_length by done. lia.
    + rewrite window_length by done. lia.
Qed.

Lemma push_back_full b v :
  wf b → finish b = end_of_storage b → 2 ≤ capacity b →
  ∃ b',
    push_back v b = Returns b'
    ∧ wf b'
    ∧ size b' = size b
    ∧ capacity b' = capacity b
    ∧ window b' = drop 1 (window b) ++ [v].
Proof.
  intros Hwf Hfull Hcap. pose proof (size_cases _ Hwf) as Hs.
  rewrite capacity_wf in Hcap by done.
  assert (Hsz : size b = end_of_storage b - start_of_storage b)
    by (unfold wf in Hwf; lia).
  unfold push_back. rewrite decide_True by done. unfold begin.
  rewrite <- (cursor_0 b), cursor_slot by (done || lia).
  rewrite store_slot by (done || lia). simpl.
  set (b1 := set_storage _ b).
  assert (Hwf1 : wf b1).
  { apply wf_set_storage; [done|]. by rewrite length_insert. }
  assert (Hw1 : window b1 = <[0%nat := v]> (window b)).
  { unfold b1. by rewrite window_store by (done || lia). }
  change (start b) with (start b1).
  rewrite <- (cursor_0 b1), cursor_slot by (done || (change (size b1) with (size b); lia)).
  rewrite incr_slot by (done || (change (size b1) with (size b); lia)).
  rewrite cursor_slot by (change (size b1) with (size b); lia).
  destruct (window_turn b1 Hwf1) as (Hwf2 & Hsz2 & Hw2);
    [done|change (size b1) with (size b); lia|].
  exists (set_start (slot b1 1) b1). do 4 (split; [done|]).
  rewrite Hw2, Hw1.
  assert (Hlen : (2 ≤ length (window b))%nat)
    by (rewrite window_length by done; lia).
  destruct (window b) as [|x [|y w]]; simpl in Hlen; try lia. done.
Qed.


(** ** Further properties *)

(** *** Construction *)

Lemma window_of_list l : window (of_list l) = l.
Proof.
  unfold window, of_list. simpl. rewrite decide_True by done.
  rewrite Z.sub_diag. simpl. by rewrite drop_0, app_nil_r.
Qed.

(** X1.  A buffer built from a literal list is full: size and capacity are
    the length of the list and the traversal gives the list back. *)
Theorem of_list_elements l :
  Z.of_nat (length l) ≤ PTRDIFF_MAX →
  size (of_list l) = Z.of_nat (length l)
  ∧ capacity (of_list l) = Z.of_nat (length l)
  ∧ elements (of_list l) = Returns l.
Proof.
  intros Hlen. pose proof (wf_of_list l Hlen) as Hwf.
  assert (Hc : capacity (of_list l) = Z.of_nat (length l)).
  { rewrite capacity_wf by done. unfold of_list. simpl. lia. }
  split; [|split; [done|]].
  - pose proof (size_cases _ Hwf) as Hs. unfold of_list in Hs. simpl in Hs.
    fold (of_list l) in Hs. lia.
  - rewrite elements_window by done. by rewrite window_of_list.
Qed.

Lemma wf_CircularBuffer_n n :
  0 ≤ n ≤ PTRDIFF_MAX → wf (CircularBuffer_n n).
Proof.
  intros Hn. unfold wf, CircularBuffer_n. simpl.
  rewrite length_replicate. lia.
Qed.

Lemma wf_CircularBuffer_n_value n v :
  0 ≤ n ≤ PTRDIFF_MAX → wf (CircularBuffer_n_value n v).
Proof.
  intros Hn. unfold wf, CircularBuffer_n_value. simpl.
  rewrite fill_block_fresh by lia. simpl. rewrite length_replicate. lia.
Qed.

(** X2.  [CircularBuffer(n)] is empty with capacity [n];
    [CircularBuffer(n, value)] is full and holds [n] copies of [value]. *)
Theorem sized_constructors n v :
  0 ≤ n ≤ PTRDIFF_MAX →
  (size (CircularBuffer_n n) = 0
   ∧ capacity (CircularBuffer_n n) = n
   ∧ empty (CircularBuffer_n n) = true
   ∧ elements (CircularBuffer_n n) = Returns [])
  ∧ (size (CircularBuffer_n_value n v) = n
     ∧ capacity (CircularBuffer_n_value n v) = n
     ∧ elements (CircularBuffer_n_value n v) = Returns (replicate (Z.to_nat n) v)).
Proof.
  intros Hn.
  pose proof (wf_CircularBuffer_n n Hn) as Hwf.
  pose proof (wf_CircularBuffer_n_value n v Hn) as Hwfv.
  split.
  - assert (He : empty (CircularBuffer_n n) = true).
    { unfold empty, CircularBuffer_n. simpl. by rewrite bool_decide_eq_true. }
    assert (Hs : size (CircularBuffer_n n) = 0).
    { pose proof (size_cases _ Hwf) as Hs. unfold CircularBuffer_n in Hs.
      simpl in Hs. fold (CircularBuffer_n n) in Hs. lia. }
    split; [done|]. split.
    { rewrite capacity_wf by done. unfold CircularBuffer_n. simpl. lia. }
    split; [done|]. rewrite elements_window by done. f_equal.
    apply nil_length_inv. rewrite window_length by done. lia.
  - assert (Hs : size (CircularBuffer_n_value n v) = n).
    { pose proof (size_cases _ Hwfv) as Hs. unfold CircularBuffer_n_value in Hs.
      simpl in Hs. fold (CircularBuffer_n_value n v) in Hs. lia. }
    split; [done|]. split.
    { rewrite capacity_wf by done. unfold CircularBuffer_n_value. simpl. lia. }
    rewrite elements_window by done. f_equal.
    unfold window, CircularBuffer_n_value. simpl.
    rewrite decide_True by done. rewrite Z.sub_diag. simpl.
    rewrite drop_0, app_nil_r. rewrite fill_block_fresh by lia. done.
Qed.

(** X3.  While the markers lie inside the block, [size()] is at most
    [capacity()], a block without slots holds nothing, and [empty()] says
    the same as [size() == 0]. *)
Theorem size_capacity_empty b :
  wf b →
  0 ≤ size b ≤ capacity b
  ∧ (capacity b = 0 → size b = 0)
  ∧ (empty b = true ↔ size b = 0).
Proof.
  intros Hwf. pose proof (size_bounds b Hwf) as Hb.
  split; [done|]. split; [lia|].
  unfold empty. rewrite bool_decide_eq_true.
  pose proof (size_cases _ Hwf) as Hs. unfold wf in Hwf. lia.
Qed.

(** *** Element access *)

Lemma index_slot b k :
  wf b → 0 ≤ k < size b → index b k = load (slot b k) b.
Proof.
  intros Hwf Hk. pose proof (size_bounds b Hwf) as Hb.
  rewrite capacity_wf in Hb by done.
  assert (Hmax : end_of_storage b - start_of_storage b ≤ PTRDIFF_MAX)
    by (by destruct Hwf as (_ & ? & _)).
  unfold index, iter_index.
  rewrite to_difference_type_small by lia.
  rewrite mod_size_wf by (done || lia). simpl.
  rewrite to_size_t_small by (unfold PTRDIFF_MAX in Hmax; lia).
  rewrite Z.mod_small by lia.
  unfold slot, begin. repeat case_decide; try lia; f_equal; lia.
Qed.

(** X4.  On a well-formed, non-empty buffer [front()] is the first element
    of the traversal, [back()] the last, and [operator[]] at [k < size()]
    the element the traversal meets at place [k]. *)
Theorem element_access b :
  wf b → 0 < size b →
  ∃ l,
    elements b = Returns l
    ∧ (∃ x, head l = Some x ∧ front b = Returns x)
    ∧ (∃ y, last l = Some y ∧ back b = Returns y)
    ∧ ∀ k, 0 ≤ k < size b →
        ∃ z, l !! Z.to_nat k = Some z ∧ index b k = Returns z.
Proof.
  intros Hwf Hpos. exists (window b).
  split; [by apply elements_window|]. split; [|split].
  - destruct (load_slot b 0 Hwf) as (x & Hx & Hload); [lia|].
    exists x. rewrite head_lookup. split; [done|].
    unfold front. rewrite <- (cursor_0 b), cursor_slot by (done || lia). done.
  - destruct (load_slot b (size b - 1) Hwf) as (y & Hy & Hload); [lia|].
    exists y. split.
    + rewrite last_lookup, window_length by done.
      replace (Nat.pred (Z.to_nat (size b))) with (Z.to_nat (size b - 1)) by lia.
      done.
    + unfold back. by rewrite decr_end.
  - intros k Hk. destruct (load_slot b k Hwf Hk) as (z & Hz & Hload).
    exists z. split; [done|]. by rewrite index_slot.
Qed.

(** *** push and pop, read through the traversal *)

(** X5.  [push_back] on a buffer that is not full, whose back marker has a
    free slot behind it inside the block (or reaches the block's end with
    the front at the block's start): the value is appended and the size
    grows by one. *)
Theorem push_back_appends b v :
  wf b → finish b ≠ end_of_storage b → finish b + 1 ≠ start b →
  finish b + 1 ≠ end_of_storage b ∨ start b = start_of_storage b →
  ∃ b' l,
    push_back v b = Returns b'
    ∧ elements b = Returns l
    ∧ elements b' = Returns (l ++ [v])
    ∧ size b' = size b + 1
    ∧ capacity b' = capacity b.
Proof.
  intros Hwf Hnf Hns Hroom.
  destruct (push_back_room b v Hwf Hnf Hns Hroom)
    as (b' & Hrun & Hwf' & Hsz & Hcap & Hw).
  exists b', (window b). rewrite !elements_window by done.
  by rewrite Hw.
Qed.

(** X6.  [push_back] on a full buffer of capacity at least 2: the front
    element is dropped, the others keep their order, the value is the new
    back, and size and capacity stay. *)
Theorem push_back_evicts_front b v :
  wf b → finish b = end_of_storage b → 2 ≤ capacity b →
  ∃ b' l,
    push_back v b = Returns b'
    ∧ elements b = Returns l
    ∧ elements b' = Returns (drop 1 l ++ [v])
    ∧ size b' = size b
    ∧ capacity b' = capacity b.
Proof.
  intros Hwf Hfull Hcap.
  destruct (push_back_full b v Hwf Hfull Hcap)
    as (b' & Hrun & Hwf' & Hsz & Hc & Hw).
  exists b', (window b). rewrite !elements_window by done.
  by rewrite Hw.
Qed.

(** X7.  [pop_back] and [pop_front] leave an empty buffer as it is;
    [pop_back] on a non-empty buffer removes the last element of the
    traversal and nothing else. *)
Theorem pop_back_removes_last b :
  wf b →
  (empty b = true → pop_back b = b ∧ pop_front b = b)
  ∧ (empty b = false →
     ∃ l,
       elements b = Returns l
       ∧ elements (pop_back b) = Returns (take (length l - 1) l)
       ∧ size (pop_back b) = size b - 1
       ∧ capacity (pop_back b) = capacity b).
Proof.
  intros Hwf. split; [apply pop_empty|]. intros He.
  destruct (pop_back_nonempty b Hwf He) as (Hwf' & Hsz & Hcap & Hw).
  exists (window b). rewrite !elements_window by done.
  rewrite Hw, window_length by done.
  replace (Z.to_nat (size b) - 1)%nat with (Z.to_nat (size b - 1)) by lia.
  done.
Qed.

(** X8.  [pop_front] on a non-empty buffer that is not full removes the
    first element of the traversal and nothing else. *)
Theorem pop_front_removes_first b :
  wf b → empty b = false → finish b ≠ end_of_storage b →
  ∃ l,
    elements b = Returns l
    ∧ elements (pop_front b) = Returns (drop 1 l)
    ∧ size (pop_front b) = size b - 1
    ∧ capacity (pop_front b) = capacity b.
Proof.
  intros Hwf He Hnf.
  destruct (pop_front_not_full b Hwf He Hnf) as (Hwf' & Hsz & Hw).
  exists (window b). rewrite !elements_window by done.
  rewrite Hw. do 3 (split; [done|]).
  unfold pop_front. by destruct (negb (empty b)).
Qed.

Lemma nonempty_of_size b : wf b → 0 < size b → empty b = false.
Proof.
  intros Hwf Hpos. unfold empty. apply bool_decide_eq_false.
  pose proof (size_cases _ Hwf) as Hs. unfold wf in Hwf. lia.
Qed.

(** In a full buffer the window read from the slot of place [k] is the old
    one turned by [k] places. *)
Lemma window_rotate b k :
  wf b → finish b = end_of_storage b → 0 ≤ k < size b →
  wf (set_start (slot b k) b)
  ∧ size (set_start (slot b k) b) = size b
  ∧ window (set_start (slot b k) b)
    = drop (Z.to_nat k) (window b) ++ take (Z.to_nat k) (window b).
Proof.
  intros Hwf Hfull Hk. pose proof (size_cases _ Hwf) as Hs.
  pose proof (slot_range b k Hwf Hk) as Hr.
  set (b' := set_start (slot b k) b).
  assert (Hwf' : wf b').
  { unfold b', wf in *. simpl. lia. }
  assert (Hsz : size b' = size b).
  { pose proof (size_cases _ Hwf') as Hs'. subst b'. simpl_markers.
    unfold wf in Hwf. lia. }
  split; [done|]. split; [done|]. apply list_eq. intros j.
  destruct (decide (j < Z.to_nat (size b))%nat) as [Hj|Hj].
  - replace j with (Z.to_nat (Z.of_nat j)) at 1 by lia.
    rewrite window_lookup by (done || lia).
    change (storage b') with (storage b).
    change (start_of_storage b') with (start_of_storage b).
    destruct (decide (j < Z.to_nat (size b) - Z.to_nat k)%nat) as [Hj1|Hj1].
    + rewrite lookup_app_l by (rewrite length_drop, window_length by done; lia).
      rewrite lookup_drop.
      replace (Z.to_nat k + j)%nat with (Z.to_nat (Z.of_nat j + k)) by lia.
      rewrite window_lookup by (done || lia). do 2 f_equal.
      unfold wf, PTRDIFF_MAX in Hwf. unfold b', slot. simpl. unfold slot.
      repeat case_decide; lia.
    + rewrite lookup_app_r by (rewrite length_drop, window_length by done; lia).
      rewrite length_drop, window_length by done.
      rewrite lookup_take_lt by lia.
      replace (j - (Z.to_nat (size b) - Z.to_nat k))%nat
        with (Z.to_nat (Z.of_nat j + k - size b)) by lia.
      rewrite window_lookup by (done || lia). do 2 f_equal.
      unfold wf, PTRDIFF_MAX in Hwf. unfold b', slot. simpl. unfold slot.
      repeat case_decide; lia.
  - rewrite !lookup_ge_None_2; [done|..].
    + rewrite length_app, length_drop, length_take, window_length by done. lia.
    + rewrite window_length by done. lia.
Qed.

Lemma push_front_full b v :
  wf b → finish b = end_of_storage b → 1 ≤ capacity b →
  ∃ b',
    push_front v b = Returns b'
    ∧ wf b'
    ∧ size b' = size b
    ∧ capacity b' = capacity b
    ∧ window b' = v :: take (Z.to_nat (size b - 1)) (window b).
Proof.
  intros Hwf Hfull Hcap. pose proof (size_cases _ Hwf) as Hs.
  rewrite capacity_wf in Hcap by done.
  assert (Hsz : size b = end_of_storage b - start_of_storage b)
    by (unfold wf in Hwf; lia).
  unfold push_front. rewrite decide_True by done.
  rewrite decr_end by (done || lia).
  rewrite store_slot by (done || lia). simpl.
  set (b1 := set_storage _ b).
  assert (Hwf1 : wf b1).
  { apply wf_set_storage; [done|]. by rewrite length_insert. }
  assert (Hw1 : window b1 = <[Z.to_nat (size b - 1) := v]> (window b)).
  { unfold b1. by rewrite window_store by (done || lia). }
  change (finish b) with (end_ b1).
  rewrite decr_end by (done || (change (size b1) with (size b); lia)).
  change (size b1) with (size b).
  destruct (window_rotate b1 (size b - 1) Hwf1) as (Hwf2 & Hsz2 & Hw2);
    [done|change (size b1) with (size b); lia|].
  exists (set_start (slot b1 (size b - 1)) b1). do 4 (split; [done|]).
  rewrite Hw2, Hw1.
  rewrite insert_take_drop by (rewrite window_length by done; lia).
  rewrite (drop_ge (window b)) by (rewrite window_length by done; lia).
  rewrite drop_app_length', take_app_length'; [done|..];
    rewrite length_take, window_length by done; lia.
Qed.

Lemma push_front_room b v :
  wf b → finish b ≠ end_of_storage b →
  (if decide (start b ≠ start_of_storage b) then start b - 1
   else end_of_storage b - 1) ≠ finish b →
  ∃ b',
    push_front v b = Returns b'
    ∧ wf b'
    ∧ size b' = size b + 1
    ∧ capacity b' = capacity b
    ∧ finish b' = finish b
    ∧ end_of_storage b' = end_of_storage b
    ∧ window b' = v :: window b.
Proof.
  intros Hwf Hnf Hroom. pose proof (size_cases _ Hwf) as Hs.
  pose proof (size_bounds b Hwf) as Hb.
  unfold push_front. rewrite decide_False by done. cbv zeta.
  set (p := if decide (start b ≠ start_of_storage b) then start b - 1
            else end_of_storage b - 1) in *.
  assert (Hb1 : (if decide (start b ≠ start_of_storage b)
                 then set_start (start b - 1) b
                 else set_start (end_of_storage b - 1) b) = set_start p b).
  { unfold p. by case_decide. }
  rewrite Hb1. set (b1 := set_start p b).
  assert (Hp : start_of_storage b ≤ p < end_of_storage b).
  { unfold p. unfold wf in Hwf. case_decide; lia. }
  assert (Hwf1 : wf b1).
  { unfold b1, wf in *. simpl. lia. }
  assert (Hsz1 : size b1 = size b + 1).
  { pose proof (size_cases _ Hwf1) as Hs1. subst b1. simpl_markers.
    unfold wf in Hwf. unfold p in *. case_decide; lia. }
  assert (Hslot : ∀ j, 0 ≤ j < size b → slot b1 (j + 1) = slot b j).
  { intros j Hj. unfold wf in Hwf. unfold b1, slot. simpl. unfold p in *.
    repeat case_decide; lia. }
  unfold begin. rewrite <- (cursor_0 b1), cursor_slot by (done || lia).
  rewrite store_slot by (done || lia).
  set (b2 := set_storage _ b1).
  assert (Hwf2 : wf b2).
  { apply wf_set_storage; [done|]. by rewrite length_insert. }
  exists b2. do 6 (split; [done|]).
  unfold b2. rewrite window_store by (done || lia).
  apply list_eq. intros [|j]; simpl.
  - rewrite list_lookup_insert_eq; [done|].
    rewrite window_length by done. lia.
  - rewrite list_lookup_insert_ne by done.
    destruct (decide (j < Z.to_nat (size b))%nat) as [Hj|Hj].
    + replace (S j) with (Z.to_nat (Z.of_nat j + 1)) by lia.
      rewrite window_lookup by (done || lia).
      rewrite Hslot by lia.
      replace j with (Z.to_nat (Z.of_nat j)) at 2 by lia.
      rewrite window_lookup by (done || lia). done.
    + rewrite !lookup_ge_None_2; [done|..]; rewrite window_length by done; lia.
Qed.

(** X9.  [push_front] on a full buffer with at least one slot: the back
    element is dropped, the others keep their order, the value is the new
    front, and size and capacity stay. *)
Theorem push_front_evicts_back b v :
  wf b → finish b = end_of_storage b → 1 ≤ capacity b →
  ∃ b' l,
    push_front v b = Returns b'
    ∧ elements b = Returns l
    ∧ elements b' = Returns (v :: take (length l - 1) l)
    ∧ size b' = size b
    ∧ capacity b' = capacity b.
Proof.
  intros Hwf Hfull Hcap.
  destruct (push_front_full b v Hwf Hfull Hcap)
    as (b' & Hrun & Hwf' & Hsz & Hc & Hw).
  exists b', (window b). rewrite !elements_window by done.
  rewrite Hw, window_length by done.
  replace (Z.to_nat (size b) - 1)%nat with (Z.to_nat (size b - 1)) by lia.
  done.
Qed.

(** X10.  [push_front] on a buffer that is not full, when the slot in front
    of the front marker (the block's last slot if the front is at the
    block's start) is not the one the back marker points at: the value is
    put in front and the size grows by one. *)
Theorem push_front_prepends b v :
  wf b → finish b ≠ end_of_storage b →
  (if decide (start b ≠ start_of_storage b) then start b - 1
   else end_of_storage b - 1) ≠ finish b →
  ∃ b' l,
    push_front v b = Returns b'
    ∧ elements b = Returns l
    ∧ elements b' = Returns (v :: l)
    ∧ size b' = size b + 1
    ∧ capacity b' = capacity b.
Proof.
  intros Hwf Hnf Hroom.
  destruct (push_front_room b v Hwf Hnf Hroom)
    as (b' & Hrun & Hwf' & Hsz & Hc & Hf & He & Hw).
  exists b', (window b). rewrite !elements_window by done.
  by rewrite Hw.
Qed.

(** X11.  A push that finds room, undone by the pop at the same end, gives
    back the traversal and the size: [push_back] then [pop_back], and
    [push_front] then [pop_front]. *)
Theorem push_pop_round_trip b v :
  wf b → finish b ≠ end_of_storage b →
  (finish b + 1 ≠ start b →
   finish b + 1 ≠ end_of_storage b ∨ start b = start_of_storage b →
   ∃ b', push_back v b = Returns b'
         ∧ elements (pop_back b') = elements b
         ∧ size (pop_back b') = size b)
  ∧ ((if decide (start b ≠ start_of_storage b) then start b - 1
      else end_of_storage b - 1) ≠ finish b →
     ∃ b', push_front v b = Returns b'
           ∧ elements (pop_front b') = elements b
           ∧ size (pop_front b') = size b).
Proof.
  intros Hwf Hnf. pose proof (size_bounds b Hwf) as Hb. split.
  - intros Hns Hroom.
    destruct (push_back_room b v Hwf Hnf Hns Hroom)
      as (b' & Hrun & Hwf' & Hsz & Hcap & Hw).
    exists b'. split; [done|].
    destruct (pop_back_nonempty b' Hwf') as (Hwf2 & Hsz2 & _ & Hw2).
    { apply nonempty_of_size; [done|lia]. }
    rewrite !elements_window by done. rewrite Hw2, Hw, Hsz.
    split; [|lia]. f_equal. apply take_app_length'.
    rewrite window_length by done. lia.
  - intros Hroom.
    destruct (push_front_room b v Hwf Hnf Hroom)
      as (b' & Hrun & Hwf' & Hsz & Hc & Hf & He & Hw).
    exists b'. split; [done|].
    destruct (pop_front_not_full b' Hwf') as (Hwf2 & Hsz2 & Hw2).
    { apply nonempty_of_size; [done|lia]. }
    { by rewrite Hf, He. }
    rewrite !elements_window by done. rewrite Hw2, Hw. split; [done|lia].
Qed.

(** *** The ring keeps the latest pushes *)

Lemma push_back_markers b b' v :
  finish b ≠ end_of_storage b → push_back v b = Returns b' →
  start b' = start b
  ∧ start_of_storage b' = start_of_storage b
  ∧ end_of_storage b' = end_of_storage b.
Proof.
  intros Hnf. unfold push_back, store. rewrite decide_False by done.
  repeat case_decide; intros Hrun; simplify_eq. done.
Qed.

Lemma drop_drop_app (l1 l2 : list Tp) (m : nat) :
  drop (length (drop (length l1 - m) l1 ++ l2) - m)
       (drop (length l1 - m) l1 ++ l2)
  = drop (length (l1 ++ l2) - m) (l1 ++ l2).
Proof.
  rewrite !length_app.
  destruct (decide (length l1 ≤ m)%nat) as [Hle|Hgt].
  - replace (length l1 - m)%nat with 0%nat by lia. by rewrite drop_0.
  - rewrite length_drop.
    replace (length l1 - (length l1 - m) + length l2 - m)%nat
      with (length l2) by lia.
    replace (length l1 + length l2 - m)%nat
      with (length l1 - m + length l2)%nat by lia.
    rewrite <- drop_drop. by rewrite (drop_app_le l1) by lia.
Qed.

(** One [push_back] on a buffer whose front is at the block's start or that
    is full: such it stays, and it holds the latest elements, as many as the
    block has slots. *)
Lemma push_back_latest b v :
  wf b → 2 ≤ capacity b →
  start b = start_of_storage b ∨ finish b = end_of_storage b →
  ∃ b',
    push_back v b = Returns b'
    ∧ wf b'
    ∧ capacity b' = capacity b
    ∧ (start b' = start_of_storage b' ∨ finish b' = end_of_storage b')
    ∧ window b'
      = drop (length (window b ++ [v]) - Z.to_nat (capacity b))
             (window b ++ [v]).
Proof.
  intros Hwf Hcap Hanch. pose proof (size_bounds b Hwf) as Hb.
  pose proof (size_cases _ Hwf) as Hs.
  destruct (decide (finish b = end_of_storage b)) as [Hfull|Hnf].
  - destruct (push_back_full b v Hwf Hfull Hcap)
      as (b' & Hrun & Hwf' & Hsz & Hc & Hw).
    exists b'. do 3 (split; [done|]). split.
    + right. pose proof (size_cases _ Hwf') as Hs'.
      rewrite !capacity_wf in Hc by done.
      unfold wf in Hwf, Hwf'. lia.
    + rewrite Hw, length_app, window_length by done. simpl.
      replace (Z.to_nat (size b) + 1 - Z.to_nat (capacity b))%nat
        with 1%nat by (unfold wf in Hwf; rewrite capacity_wf by done; lia).
      rewrite drop_app_le; [done|]. rewrite window_length by done.
      unfold wf in Hwf. rewrite capacity_wf in Hcap by done. lia.
  - destruct Hanch as [Hst|?]; [|done].
    destruct (push_back_room b v Hwf Hnf) as (b' & Hrun & Hwf' & Hsz & Hc & Hw).
    { unfold wf in Hwf. lia. }
    { by right. }
    destruct (push_back_markers b b' v Hnf Hrun) as (Hst' & Hsos' & Heos').
    exists b'. do 3 (split; [done|]). split.
    + left. by rewrite Hst', Hsos'.
    + rewrite Hw. rewrite length_app, window_length by done. simpl.
      pose proof (size_bounds b' Hwf') as Hb'.
      replace (Z.to_nat (size b) + 1 - Z.to_nat (capacity b))%nat
        with 0%nat by lia.
      by rewrite drop_0.
Qed.

Lemma push_back_all_latest l : ∀ b,
  wf b → 2 ≤ capacity b →
  start b = start_of_storage b ∨ finish b = end_of_storage b →
  ∃ b',
    push_back_all l b = Returns b'
    ∧ wf b'
    ∧ capacity b' = capacity b
    ∧ window b'
      = drop (length (window b ++ l) - Z.to_nat (capacity b)) (window b ++ l).
Proof.
  induction l as [|v l IH]; intros b Hwf Hcap Hanch.
  - exists b. simpl. do 3 (split; [done|]).
    rewrite app_nil_r, window_length by done.
    pose proof (size_bounds b Hwf) as Hb.
    replace (Z.to_nat (size b) - Z.to_nat (capacity b))%nat with 0%nat by lia.
    by rewrite drop_0.
  - destruct (push_back_latest b v Hwf Hcap Hanch)
      as (b1 & Hrun1 & Hwf1 & Hc1 & Hanch1 & Hw1).
    destruct (IH b1 Hwf1) as (b' & Hrun & Hwf' & Hc & Hw); [lia|done|].
    exists b'. simpl. rewrite Hrun1. simpl. split; [done|]. split; [done|].
    split; [lia|]. rewrite Hw, Hw1, Hc1.
    rewrite drop_drop_app. by rewrite <- !app_assoc.
Qed.

(** X12.  A buffer made by [CircularBuffer(n)], [n >= 2], after any run of
    [push_back] calls holds the most recent [n] values pushed (all of them
    while there are fewer), in the order they were pushed. *)
Theorem ring_keeps_latest n l :
  2 ≤ n ≤ PTRDIFF_MAX →
  ∃ b',
    push_back_all l (CircularBuffer_n n) = Returns b'
    ∧ capacity b' = n
    ∧ size b' = Z.min n (Z.of_nat (length l))
    ∧ elements b' = Returns (drop (length l - Z.to_nat n) l).
Proof.
  intros Hn. pose proof (wf_CircularBuffer_n n ltac:(lia)) as Hwf.
  assert (Hc : capacity (CircularBuffer_n n) = n).
  { rewrite capacity_wf by done. unfold CircularBuffer_n. simpl. lia. }
  assert (Hw0 : window (CircularBuffer_n n) = []).
  { apply nil_length_inv. rewrite window_length by done.
    pose proof (size_cases _ Hwf) as Hs. unfold CircularBuffer_n in Hs.
    simpl in Hs. fold (CircularBuffer_n n) in Hs. lia. }
  destruct (push_back_all_latest l (CircularBuffer_n n) Hwf)
    as (b' & Hrun & Hwf' & Hc' & Hw); [lia|by left|].
  rewrite Hw0, Hc in Hw. simpl in Hw.
  exists b'. split; [done|]. split; [lia|]. split.
  - assert (Hlen : length (window b') = length (drop (length l - Z.to_nat n) l))
      by (by rewrite Hw).
    rewrite window_length, length_drop in Hlen by done.
    pose proof (size_bounds b' Hwf'). lia.
  - rewrite elements_window by done. by rewrite Hw.
Qed.

(** *** Buffers of capacity 0 and 1 *)

(** X13.  The basic variant never grows: on a buffer without slots (a
    default-constructed or cleared one, or [CircularBuffer(0)]) both pushes
    go through a pointer that is outside the block. *)
Theorem push_without_slots b v :
  wf b → capacity b = 0 →
  push_back v b = Undefined ∧ push_front v b = Undefined.
Proof.
  intros Hwf Hc. rewrite capacity_wf in Hc by done.
  unfold wf in Hwf.
  assert (Hf : finish b = end_of_storage b) by lia.
  assert (Hst : start b = end_of_storage b) by lia.
  unfold push_back, push_front. rewrite !decide_True by done.
  unfold begin, end_, iter_decr. rewrite decide_True by lia.
  unfold store. by rewrite !decide_False by lia.
Qed.

(** [clear] gives the state of a default-constructed buffer: no element,
    no capacity, and a push after it is undefined. *)
Remark clear_state b v :
  clear b = CircularBuffer_default
  ∧ size (clear b) = 0
  ∧ capacity (clear b) = 0
  ∧ empty (clear b) = true
  ∧ elements (clear b) = Returns []
  ∧ push_back v (clear b) = Undefined.
Proof. by vm_compute. Qed.

(** X14.  On a full buffer of capacity 1, [push_back] stores the value and
    leaves the front marker on [end_of_storage]: [size()] is 1 and
    [operator[]] finds the value, but the traversal from [begin()] to
    [end()] is empty, [front()] and [back()] read outside the block, and a
    further [push_back] writes outside it. *)
Theorem push_back_capacity_one b v w :
  wf b → capacity b = 1 → finish b = end_of_storage b →
  ∃ b',
    push_back v b = Returns b'
    ∧ size b' = 1
    ∧ index b' 0 = Returns v
    ∧ elements b' = Returns []
    ∧ front b' = Undefined
    ∧ back b' = Undefined
    ∧ push_back w b' = Undefined.
Proof.
  intros Hwf Hc Hfull. rewrite capacity_wf in Hc by done.
  destruct b as [s f ss es st]. unfold wf in Hwf. simpl in *.
  destruct Hwf as (Hlen & _ & Hs & _ & Hz).
  assert (s = ss) by lia. assert (es = ss + 1) by lia. subst s f es.
  replace (Z.to_nat (ss + 1 - ss)) with 1%nat in Hlen by lia.
  destruct st as [|x [|? ?]]; simpl in Hlen; try lia. clear Hlen Hs Hz Hc.
  exists (mkBuffer (ss + 1) (ss + 1) ss (ss + 1) [v]).
  assert (Hsize : size (mkBuffer (ss + 1) (ss + 1) ss (ss + 1) [v]) = 1).
  { unfold size. simpl. rewrite decide_False by lia.
    rewrite decide_False by (intros ?; done).
    replace (ss + 1 - ss) with 1 by lia. done. }
  split; [|split; [done|split; [|split; [|split; [|split]]]]].
  - unfold push_back, store, begin, iter_incr, set_start, set_storage. simpl.
    rewrite Z.sub_diag. simpl.
    repeat case_decide; try lia; simpl; repeat case_decide; try lia; done.
  - unfold index, iter_index, mod_size. rewrite Hsize. simpl.
    change (to_difference_type (to_size_t (to_difference_type 0) `mod` 1))
      with 0.
    rewrite decide_True by lia. unfold load. simpl.
    rewrite decide_True by lia.
    replace (Z.to_nat (ss + (ss + 1 + 0 - (ss + 1)) - ss)) with 0%nat by lia.
    done.
  - unfold elements, loop_fuel, begin, end_. simpl.
    by rewrite decide_True.
  - unfold front, load. simpl. by rewrite decide_False by lia.
  - unfold back, load, iter_decr, end_. simpl.
    rewrite !(decide_True (P := ss + 1 = ss + 1)) by done.
    by rewrite decide_False by lia.
  - unfold push_back, store, begin. simpl.
    rewrite decide_True by done. by rewrite decide_False by lia.
Qed.

(** *** Cursor arithmetic inside the window *)

Lemma decr_cursor b j :
  wf b → 0 < j ≤ size b → iter_decr b (cursor b j) = slot b (j - 1).
Proof. intros Hwf Hj. markers Hwf. Qed.

(** X15.  [++] and [--] are inverse to each other on the cursors of a
    well-formed buffer: stepping forward from the element at place [i] and
    back again returns to it, and so does stepping back from the cursor at
    place [j > 0] ([end()] included) and forward again. *)
Theorem incr_decr_inverse b i j :
  wf b → 0 ≤ i < size b → 0 < j ≤ size b →
  iter_decr b (iter_incr b (cursor b i)) = cursor b i
  ∧ iter_incr b (iter_decr b (cursor b j)) = cursor b j.
Proof.
  intros Hwf Hi Hj. split.
  - rewrite (cursor_slot b i) by lia. rewrite incr_slot by done.
    rewrite decr_cursor by (done || lia). f_equal. lia.
  - rewrite decr_cursor by done. rewrite incr_slot by (done || lia).
    f_equal. lia.
Qed.

Lemma iter_plus_slot b i n :
  wf b → 0 ≤ i → 0 ≤ n → i + n < size b →
  iter_plus b (slot b i) n = Returns (slot b (i + n)).
Proof.
  intros Hwf Hi Hn Hin. pose proof (size_bounds b Hwf) as Hb.
  rewrite capacity_wf in Hb by done.
  assert (Hmax : end_of_storage b - start_of_storage b ≤ PTRDIFF_MAX)
    by (by destruct Hwf as (_ & ? & _)).
  unfold PTRDIFF_MAX in Hmax.
  unfold iter_plus, iter_plus_assign.
  destruct (decide (n = 0)) as [->|Hn0].
  { rewrite Z.add_0_r. done. }
  rewrite decide_False by lia.
  unfold plus_assign_pos. rewrite mod_size_wf by (done || lia). simpl.
  rewrite to_size_t_small by lia. rewrite Z.mod_small by lia.
  pose proof (size_cases _ Hwf) as Hs. unfold wf in Hwf. unfold slot.
  repeat case_decide; try lia; f_equal; lia.
Qed.

Lemma iter_minus_cursor b j n :
  wf b → 0 ≤ n ≤ j → j ≤ size b → n < size b →
  iter_minus b (cursor b j) n = Returns (cursor b (j - n)).
Proof.
  intros Hwf Hn Hj Hns. pose proof (size_bounds b Hwf) as Hb.
  rewrite capacity_wf in Hb by done.
  assert (Hmax : end_of_storage b - start_of_storage b ≤ PTRDIFF_MAX)
    by (by destruct Hwf as (_ & ? & _)).
  unfold PTRDIFF_MAX in Hmax.
  unfold iter_minus, iter_minus_assign.
  destruct (decide (n = 0)) as [->|Hn0].
  { rewrite Z.sub_0_r. done. }
  rewrite decide_False by lia.
  unfold minus_assign_pos. rewrite mod_size_wf by (done || lia). simpl.
  rewrite to_size_t_small by lia. rewrite Z.mod_small by lia.
  assert (Hgoal : ∀ p offset : Z,
            (if decide (p - offset < start_of_storage b)
             then end_of_storage b - offset + (p - start_of_storage b)
             else p - offset) = cursor b (j - n) →
            (if decide (p - offset < start_of_storage b)
             then mret (end_of_storage b - offset + (p - start_of_storage b))
             else mret (p - offset)) = Returns (cursor b (j - n))).
  { intros p offset <-. by case_decide. }
  pose proof (size_cases _ Hwf) as Hs. unfold wf in Hwf.
  case_decide as Hend.
  - apply Hgoal. unfold cursor, slot in *. repeat case_decide; lia.
  - apply Hgoal. unfold cursor, slot in *. repeat case_decide; lia.
Qed.

(** X16.  Inside the window of a well-formed buffer [+] and [-] move a
    cursor by logical places: from place [i], [+ n] reaches place [i + n]
    while that is an element, and from place [j] ([end()] included), [- n]
    reaches place [j - n], for [n] below the size. *)
Theorem cursor_plus_minus b i j n :
  wf b → 0 ≤ n < size b →
  (0 ≤ i → i + n < size b →
   iter_plus b (cursor b i) n = Returns (cursor b (i + n)))
  ∧ (n ≤ j ≤ size b →
     iter_minus b (cursor b j) n = Returns (cursor b (j - n))).
Proof.
  intros Hwf Hn. split.
  - intros Hi Hin. rewrite !cursor_slot by lia.
    apply iter_plus_slot; (done || lia).
  - intros Hj. apply iter_minus_cursor; (done || lia).
Qed.

(** X17.  In a well-formed buffer that is not full, or is full with its
    front at the block's start, the distance from an earlier cursor to a
    later one is the difference of their logical places; in particular
    [end() - begin()] is [size()]. *)
Theorem iter_diff_ordered b i j :
  wf b →
  finish b ≠ end_of_storage b ∨ start b = start_of_storage b →
  0 ≤ i ≤ j → j ≤ size b →
  iter_diff b (cursor b j) (cursor b i) = j - i.
Proof.
  intros Hwf Hcase Hi Hj. pose proof (size_cases _ Hwf) as Hs.
  unfold wf, PTRDIFF_MAX in Hwf. unfold iter_diff, cursor, slot.
  repeat case_decide; lia.
Qed.

Lemma iter_lt_end b i :
  wf b → 0 ≤ i ≤ size b →
  iter_lt b (cursor b i) (end_ b) = bool_decide (i < size b).
Proof.
  intros Hwf Hi. pose proof (size_cases _ Hwf) as Hs.
  unfold wf, PTRDIFF_MAX in Hwf. unfold iter_lt, end_, cursor, slot.
  repeat case_decide; apply bool_decide_ext; lia.
Qed.

(** X18.  In a well-formed buffer that is not full, or is full with its
    front at the block's start, the four ordering operators on cursors
    compare logical places. *)
Theorem iter_order b i j :
  wf b →
  finish b ≠ end_of_storage b ∨ start b = start_of_storage b →
  0 ≤ i ≤ size b → 0 ≤ j ≤ size b →
  iter_lt b (cursor b i) (cursor b j) = bool_decide (i < j)
  ∧ iter_gt b (cursor b i) (cursor b j) = bool_decide (j < i)
  ∧ iter_le b (cursor b i) (cursor b j) = bool_decide (i ≤ j)
  ∧ iter_ge b (cursor b i) (cursor b j) = bool_decide (j ≤ i).
Proof.
  intros Hwf Hcase Hi Hj. pose proof (size_cases _ Hwf) as Hs.
  unfold wf, PTRDIFF_MAX in Hwf.
  unfold iter_lt, iter_gt, iter_le, iter_ge, cursor, slot.
  repeat split; repeat case_decide; apply bool_decide_ext; lia.
Qed.

(** X19.  From [begin()], [i] steps of [++] lead to the cursor at logical
    place [i]: the slot of the element for [i < size()], and [end()] after
    exactly [size()] steps. *)
Theorem cursor_by_increments b i :
  wf b → 0 ≤ i ≤ size b →
  Nat.iter (Z.to_nat i) (iter_incr b) (begin b) = cursor b i
  ∧ (i < size b ↔ cursor b i ≠ end_ b).
Proof.
  intros Hwf Hi. split.
  - replace i with (Z.of_nat (Z.to_nat i)) at 2 by lia.
    assert (Hle : (Z.to_nat i ≤ Z.to_nat (size b))%nat) by lia.
    induction (Z.to_nat i) as [|m IH].
    + simpl. unfold begin. by rewrite cursor_0.
    + simpl. rewrite IH by lia. rewrite cursor_slot by lia.
      rewrite incr_slot by (done || lia). f_equal. lia.
  - split.
    + intros Hlt. rewrite cursor_slot by lia. apply slot_ne_finish; [done|lia].
    + intros Hne. destruct (decide (i = size b)) as [->|]; [|lia].
      by rewrite cursor_size in Hne.
Qed.

(** *** assign *)

(** X20.  [assign] of a source range no longer than the buffer's size
    overwrites the first elements with the source and keeps the rest; size
    and capacity stay. *)
Theorem assign_shorter_than_size src b :
  wf b → empty b = false → Z.of_nat (length src) ≤ size b →
  ∃ b' l,
    assign src b = Returns b'
    ∧ elements b = Returns l
    ∧ elements b' = Returns (src ++ drop (length src) l)
    ∧ size b' = size b
    ∧ capacity b' = capacity b.
Proof.
  intros Hwf He Hn.
  pose proof (size_nonempty b Hwf He) as Hpos.
  pose proof (size_bounds b Hwf) as Hb. rewrite capacity_wf in Hb by done.
  assert (Hmax : end_of_storage b - start_of_storage b ≤ PTRDIFF_MAX)
    by (by destruct Hwf as (_ & ? & _)).
  unfold PTRDIFF_MAX in Hmax.
  unfold assign. rewrite He. simpl negb. cbv iota.
  rewrite decide_False by lia. rewrite to_size_t_small by lia.
  destruct (decide (Z.of_nat (length src) = size b)) as [Heq|Hlt].
  - rewrite Heq, Z.div_same by lia. rewrite decide_True by lia.
    change (Z.to_nat ((1 - 1) * size b)) with 0%nat. rewrite drop_0.
    destruct (assign_loop_begin src b Hwf) as (st1 & Hrun1 & Hlen1 & Hwin1).
    rewrite Hrun1. simpl.
    rewrite drop_ge by lia. simpl.
    exists (set_storage st1 b), (window b).
    assert (Hwf1 : wf (set_storage st1 b)) by (by apply wf_set_storage).
    split; [done|]. rewrite !elements_window by done.
    split; [done|]. split; [|done].
    rewrite Hwin1, take_ge by lia.
    rewrite list_inserts_0_prefix by (rewrite window_length by done; lia).
    done.
  - rewrite Z.div_small by lia. rewrite decide_False by lia. simpl.
    destruct (assign_loop_begin src b Hwf) as (st1 & Hrun1 & Hlen1 & Hwin1).
    rewrite Hrun1. simpl.
    exists (set_storage st1 b), (window b).
    assert (Hwf1 : wf (set_storage st1 b)) by (by apply wf_set_storage).
    split; [done|]. rewrite !elements_window by done.
    split; [done|]. split; [|done].
    rewrite Hwin1, take_ge by lia.
    rewrite list_inserts_0_prefix by (rewrite window_length by done; lia).
    done.
Qed.

(** X21.  On an empty buffer [assign] does nothing, whatever the capacity;
    so the constructor from a range, which assigns to a default-constructed
    buffer, always gives an empty buffer without capacity. *)
Theorem assign_to_empty src b :
  (empty b = true → assign src b = Returns b)
  ∧ CircularBuffer_range src = Returns CircularBuffer_default
  ∧ size (CircularBuffer_default (Tp:=Tp)) = 0
  ∧ capacity (CircularBuffer_default (Tp:=Tp)) = 0.
Proof.
  split; [|by vm_compute].
  intros He. unfold assign. by rewrite He.
Qed.

Lemma assign_fill_loop_replicate (m : nat) v : ∀ cur end_it b,
  assign_fill_loop m v cur end_it b
  = assign_loop (replicate m v) cur end_it b ≫= λ '(_, b), mret b.
Proof.
  induction m as [|m IH]; intros cur end_it b; simpl; [done|].
  case_decide; [done|].
  destruct (store cur v b) as [b1| | |]; simpl; [|done..].
  apply IH.
Qed.

(** X22.  [assign(n, value)] overwrites the first [min(n, size())] elements
    with [value] and keeps the rest; size and capacity stay. *)
Theorem assign_n_value_fills n v b :
  wf b → 0 ≤ n →
  ∃ b' l,
    assign_n_value n v b = Returns b'
    ∧ elements b = Returns l
    ∧ elements b'
      = Returns (replicate (Z.to_nat (Z.min n (size b))) v
                 ++ drop (Z.to_nat (Z.min n (size b))) l)
    ∧ size b' = size b
    ∧ capacity b' = capacity b.
Proof.
  intros Hwf Hn. pose proof (size_bounds b Hwf) as Hb.
  unfold assign_n_value. rewrite assign_fill_loop_replicate.
  destruct (assign_loop_begin (replicate (Z.to_nat n) v) b Hwf)
    as (st1 & Hrun1 & Hlen1 & Hwin1).
  rewrite Hrun1. simpl.
  exists (set_storage st1 b), (window b).
  assert (Hwf1 : wf (set_storage st1 b)) by (by apply wf_set_storage).
  split; [done|]. rewrite !elements_window by done.
  split; [done|]. split; [|done].
  rewrite Hwin1, take_replicate.
  replace (Z.to_nat (size b) `min` Z.to_nat n)%nat
    with (Z.to_nat (Z.min n (size b))) by lia.
  rewrite list_inserts_0_prefix
    by (rewrite length_replicate, window_length by done; lia).
  by rewrite length_replicate.
Qed.

(** *** Reallocation: shrink_to_fit and resize with a fill value *)

(** X23.  [shrink_to_fit] brings the capacity down to the size and keeps the
    size and the traversal. *)
Theorem shrink_to_fit_capacity b :
  wf b →
  ∃ b' l,
    shrink_to_fit b = Returns b'
    ∧ capacity b' = size b
    ∧ size b' = size b
    ∧ elements b = Returns l
    ∧ elements b' = Returns l.
Proof.
  intros Hwf. pose proof (size_bounds b Hwf) as Hb.
  rewrite capacity_wf in Hb by done.
  assert (Hmax : end_of_storage b - start_of_storage b ≤ PTRDIFF_MAX)
    by (by destruct Hwf as (_ & ? & _)).
  destruct (reallocate_storage_default_grow b (size b) Hwf)
    as (b' & Hrun & Hwf' & Hc & Hs & Hw); [lia|].
  exists b', (window b). rewrite !elements_window by done.
  by rewrite Hw.
Qed.

(** X24.  [reserve(n)] above the capacity followed by [shrink_to_fit()]:
    the capacity goes to [n] and comes back to the size, and the traversal
    is the one before the two calls. *)
Theorem reserve_then_shrink b n :
  wf b → capacity b < n ≤ max_size (Tp:=Tp) →
  ∃ b1 b2,
    reserve n b = Returns b1
    ∧ capacity b1 = n
    ∧ shrink_to_fit b1 = Returns b2
    ∧ capacity b2 = size b
    ∧ size b2 = size b
    ∧ elements b2 = elements b.
Proof.
  intros Hwf Hn. pose proof (size_bounds b Hwf) as Hb.
  pose proof max_size_le as Hmax.
  destruct (reallocate_storage_default_grow b n Hwf)
    as (b1 & Hrun1 & Hwf1 & Hc1 & Hs1 & Hw1); [lia|].
  pose proof (size_bounds b1 Hwf1) as Hb1.
  destruct (reallocate_storage_default_grow b1 (size b1) Hwf1)
    as (b2 & Hrun2 & Hwf2 & Hc2 & Hs2 & Hw2); [lia|].
  exists b1, b2. split.
  { unfold reserve. rewrite decide_False by lia. by rewrite decide_True by lia. }
  split; [done|]. split; [done|]. split; [lia|]. split; [lia|].
  rewrite !elements_window by done. by rewrite Hw2, Hw1.
Qed.

Lemma reallocate_storage_filled_grow b n v :
  wf b → size b ≤ n ≤ PTRDIFF_MAX →
  ∃ b',
    _reallocate_storage_filled n v b = Returns b'
    ∧ wf b'
    ∧ capacity b' = n
    ∧ size b' = n
    ∧ window b' = window b ++ replicate (Z.to_nat (n - size b)) v.
Proof.
  intros Hwf Hn. pose proof (size_bounds b Hwf) as Hb.
  unfold _reallocate_storage_filled. rewrite decide_True by lia.
  rewrite fill_block_fresh by lia.
  unfold begin, end_. rewrite <- (cursor_0 b) by done.
  rewrite relocate_a_cursor; [|done|lia|..]; cycle 1.
  { rewrite Z.sub_0_r. by apply loop_fuel_enough. }
  { rewrite length_app, !length_replicate. lia. }
  simpl. change (Z.to_nat 0) with 0%nat. rewrite drop_0.
  rewrite list_inserts_0_r
    by (rewrite window_length, length_replicate by done; lia).
  set (b' := mkBuffer _ _ _ _ _).
  assert (Hwf' : wf b').
  { unfold wf, b'. simpl.
    rewrite length_app, length_replicate, window_length by done.
    unfold PTRDIFF_MAX in *. lia. }
  exists b'. split; [done|]. split; [done|]. split; [|split].
  - rewrite capacity_wf by done. unfold b'. simpl. lia.
  - pose proof (size_cases _ Hwf') as Hs'. unfold b' in Hs'. simpl in Hs'.
    fold b' in Hs'. lia.
  - unfold window at 1. subst b'.
    cbn [start finish start_of_storage end_of_storage storage].
    rewrite decide_True by done. rewrite Z.sub_diag. simpl.
    by rewrite drop_0, app_nil_r.
Qed.

(** X25.  [resize(n, value)] above the capacity reallocates to capacity
    [n], keeps the elements in order and appends copies of [value] up to
    size [n]. *)
Theorem resize_value_beyond_capacity b n v :
  wf b → capacity b < n ≤ max_size (Tp:=Tp) →
  ∃ b' l,
    resize_value n v b = Returns b'
    ∧ capacity b' = n
    ∧ size b' = n
    ∧ elements b = Returns l
    ∧ elements b' = Returns (l ++ replicate (Z.to_nat n - length l) v).
Proof.
  intros Hwf Hn. pose proof (size_bounds b Hwf) as Hb.
  pose proof max_size_le as Hmax.
  destruct (reallocate_storage_filled_grow b n v Hwf)
    as (b' & Hrun & Hwf' & Hc & Hs & Hw); [lia|].
  exists b', (window b). split.
  { unfold resize_value. rewrite decide_False by lia.
    by rewrite !decide_True by lia. }
  rewrite !elements_window by done. do 3 (split; [done|]).
  rewrite Hw, window_length by done. do 3 f_equal. lia.
Qed.

(** *** Reverse traversal *)

Lemma iter_gt_begin b j :
  wf b →
  finish b ≠ end_of_storage b ∨ start b = start_of_storage b →
  0 ≤ j ≤ size b →
  iter_gt b (cursor b j) (rend b) = bool_decide (0 < j).
Proof.
  intros Hwf Hcase Hj. pose proof (size_cases _ Hwf) as Hs.
  unfold wf, PTRDIFF_MAX in Hwf. unfold iter_gt, rend, begin, cursor, slot.
  repeat case_decide; apply bool_decide_ext; lia.
Qed.

Lemma traverse_reverse_cursor fuel : ∀ b j,
  wf b →
  finish b ≠ end_of_storage b ∨ start b = start_of_storage b →
  0 ≤ j ≤ size b → (Z.to_nat j < fuel)%nat →
  traverse_reverse fuel b (cursor b j) (rend b)
  = Returns (reverse (take (Z.to_nat j) (window b))).
Proof.
  induction fuel as [|fuel IH]; intros b j Hwf Hcase Hj Hfuel; [lia|].
  simpl. rewrite iter_gt_begin by done.
  destruct (decide (0 < j)) as [Hpos|Hz].
  - rewrite bool_decide_eq_true_2 by done.
    rewrite decr_cursor by (done || lia).
    destruct (load_slot b (j - 1) Hwf) as (v & Hv & ->); [lia|]. simpl.
    rewrite <- (cursor_slot b (j - 1)) by lia.
    rewrite IH by (done || lia). simpl.
    replace (Z.to_nat j) with (S (Z.to_nat (j - 1))) by lia.
    rewrite (take_S_r _ _ v) by done.
    by rewrite reverse_app.
  - rewrite bool_decide_eq_false_2 by done.
    replace j with 0 by lia. done.
Qed.

(** The two ways a library writes the comparison of reverse iterators
    agree. *)
Lemma iter_lt_gt_swap b x y : iter_lt b x y = iter_gt b y x.
Proof.
  unfold iter_lt, iter_gt.
  repeat case_decide; first [done | exfalso; intuition lia].
Qed.

(** X26.  In a well-formed buffer that is not full, or is full with its
    front at the block's start, the walk from [rbegin()] to [rend()] meets
    the elements of the forward traversal in reverse order. *)
Theorem reverse_elements_reverse b :
  wf b →
  finish b ≠ end_of_storage b ∨ start b = start_of_storage b →
  ∃ l, elements b = Returns l ∧ reverse_elements b = Returns (reverse l).
Proof.
  intros Hwf Hcase. exists (window b).
  split; [by apply elements_window|].
  unfold reverse_elements, rbegin, end_.
  rewrite <- (cursor_size b).
  pose proof (size_bounds b Hwf) as Hb.
  rewrite traverse_reverse_cursor; [|done|done|lia|by apply loop_fuel_enough].
  rewrite take_ge; [done|]. rewrite window_length by done. lia.
Qed.

(** *** Equality of containers *)

Context `{!EqDecision Tp}.

Lemma differ_loop_cursor fuel : ∀ (a b : CircularBuffer Tp) i,
  wf a → wf b → size a = size b → 0 ≤ i ≤ size a →
  (Z.to_nat (size a - i) < fuel)%nat →
  differ_loop fuel a b (cursor a i) (cursor b i)
  = Returns (bool_decide (drop (Z.to_nat i) (window a)
                          ≠ drop (Z.to_nat i) (window b))).
Proof.
  induction fuel as [|fuel IH]; intros a b i Hwa Hwb Hsz Hi Hfuel; [lia|].
  simpl. rewrite iter_lt_end by done.
  destruct (decide (i < size a)) as [Hlt|Hge].
  - rewrite bool_decide_eq_true_2 by done.
    rewrite !cursor_slot by lia.
    destruct (load_slot a i Hwa) as (x & Hx & ->); [lia|].
    destruct (load_slot b i Hwb) as (y & Hy & ->); [lia|]. simpl.
    rewrite (drop_S _ x (Z.to_nat i)) by done.
    rewrite (drop_S _ y (Z.to_nat i)) by done.
    case_decide as Hxy.
    + simpl. f_equal. symmetry. apply bool_decide_eq_true_2. congruence.
    + rewrite !incr_slot by (done || lia).
      rewrite IH by (done || lia). f_equal.
      replace (Z.to_nat (i + 1)) with (S (Z.to_nat i)) by lia.
      apply bool_decide_ext. subst y.
      split; [congruence|]. intros Hne Heq. apply Hne. by f_equal.
  - rewrite bool_decide_eq_false_2 by done. simpl. f_equal. symmetry.
    apply bool_decide_eq_false_2. intros Hne. apply Hne.
    rewrite !drop_ge; [done|..]; rewrite window_length by done; lia.
Qed.

(** X27.  On well-formed buffers [operator==] holds exactly when the two
    traversals are the same list, whatever the capacities and the places of
    the windows in their blocks; [operator!=] is its negation. *)
Theorem operator_eq_elements (a b : CircularBuffer Tp) :
  wf a → wf b →
  ∃ la lb,
    elements a = Returns la
    ∧ elements b = Returns lb
    ∧ operator_eq a b = Returns (bool_decide (la = lb))
    ∧ operator_ne a b = Returns (bool_decide (la ≠ lb)).
Proof.
  intros Hwa Hwb. exists (window a), (window b).
  rewrite !elements_window by done. do 2 (split; [done|]).
  pose proof (size_bounds a Hwa) as Ha. pose proof (size_bounds b Hwb) as Hb.
  unfold operator_eq, operator_ne.
  destruct (decide (size a = size b)) as [Hsz|Hsz].
  - rewrite !decide_False by (intros ?; done).
    unfold begin. rewrite <- (cursor_0 a), <- (cursor_0 b) by done.
    rewrite differ_loop_cursor; [|done|done|done|lia|].
    2:{ rewrite Z.sub_0_r. by apply loop_fuel_enough. }
    simpl. rewrite !drop_0. split; [|done]. f_equal.
    destruct (decide (window a = window b)) as [Heq|Hne].
    + rewrite bool_decide_eq_false_2 by (intros ?; done).
      by rewrite bool_decide_eq_true_2.
    + rewrite bool_decide_eq_true_2 by done.
      by rewrite bool_decide_eq_false_2.
  - rewrite !decide_True by done.
    assert (Hne : window a ≠ window b).
    { intros Heq. apply Hsz.
      assert (Hl : length (window a) = length (window b)) by (by rewrite Heq).
      rewrite !window_length in Hl by done. lia. }
    rewrite bool_decide_eq_false_2 by done.
    by rewrite bool_decide_eq_true_2.
Qed.

(** *** insert of one value, second branch *)

(** The front marker moved one slot back onto a free slot: the window gains
    one place in front and the old places move up by one. *)
Lemma window_extend_front b :
  wf b → finish b ≠ end_of_storage b →
  (if decide (start b ≠ start_of_storage b) then start b - 1
   else end_of_storage b - 1) ≠ finish b →
  let b1 :=
    if decide (start b ≠ start_of_storage b) then set_start (start b - 1) b
    else set_start (end_of_storage b - 1) b in
  wf b1
  ∧ size b1 = size b + 1
  ∧ (∀ j, 0 ≤ j < size b → slot b1 (j + 1) = slot b j)
  ∧ ∃ g, window b1 = g :: window b.
Proof.
  intros Hwf Hnf Hroom. pose proof (size_cases _ Hwf) as Hs.
  pose proof (size_bounds b Hwf) as Hb.
  set (p := if decide (start b ≠ start_of_storage b) then start b - 1
            else end_of_storage b - 1) in *.
  assert (Hb1 : (if decide (start b ≠ start_of_storage b)
                 then set_start (start b - 1) b
                 else set_start (end_of_storage b - 1) b) = set_start p b).
  { unfold p. by case_decide. }
  cbv zeta. rewrite Hb1. set (b1 := set_start p b).
  assert (Hp : start_of_storage b ≤ p < end_of_storage b).
  { unfold p. unfold wf in Hwf. case_decide; lia. }
  assert (Hwf1 : wf b1).
  { unfold b1, wf in *. simpl. lia. }
  assert (Hsz1 : size b1 = size b + 1).
  { pose proof (size_cases _ Hwf1) as Hs1. subst b1. simpl_markers.
    unfold wf in Hwf. unfold p in *. case_decide; lia. }
  assert (Hslot : ∀ j, 0 ≤ j < size b → slot b1 (j + 1) = slot b j).
  { intros j Hj. unfold wf in Hwf. unfold b1, slot. simpl. unfold p in *.
    repeat case_decide; lia. }
  do 3 (split; [done|]).
  destruct (load_slot b1 0 Hwf1) as (g & Hg & _); [lia|].
  exists g. apply list_eq. intros [|j]; simpl; [done|].
  destruct (decide (j < Z.to_nat (size b))%nat) as [Hj|Hj].
  - replace (S j) with (Z.to_nat (Z.of_nat j + 1)) by lia.
    rewrite window_lookup by (done || lia).
    rewrite Hslot by lia.
    replace j with (Z.to_nat (Z.of_nat j)) at 2 by lia.
    rewrite window_lookup by (done || lia). done.
  - rewrite !lookup_ge_None_2; [done|..]; rewrite window_length by done; lia.
Qed.

Lemma bind_Returns {A B} (a : A) (f : A → outcome B) :
  Returns a ≫= f = f a.
Proof. done. Qed.

(** The loop of the second branch carries the element of place [k] up to
    place [k + d], the place in front of [_pos], moving the elements between
    down by one. *)
Lemma insert_swap_front_bubble (d : nat) : ∀ b pos i k (A C : list Tp) x fuel,
  wf b →
  iter_minus b pos 1 = Returns (slot b i) →
  0 ≤ k → k + Z.of_nat d = i → i < size b →
  window b = A ++ x :: C → length A = Z.to_nat k → (d ≤ length C)%nat →
  (d < fuel)%nat →
  ∃ st,
    insert_swap_front fuel (slot b k) pos b = Returns (set_storage st b)
    ∧ length st = length (storage b)
    ∧ window (set_storage st b) = A ++ take d C ++ x :: drop d C.
Proof.
  induction d as [|d IH];
    intros b pos i k A C x fuel Hwf Hstop Hk Hki Hi Hw HA HC Hfuel.
  - destruct fuel as [|fuel]; [lia|]. simpl. rewrite Hstop. simpl.
    rewrite decide_True by (f_equal; lia).
    exists (storage b). rewrite ?take_0, ?drop_0. simpl.
    split; [by destruct b|]. split; [done|]. by destruct b.
  - destruct fuel as [|fuel]; [lia|]. simpl. rewrite Hstop. simpl.
    rewrite decide_False.
    2:{ intros Heq. apply slot_inj in Heq; (done || lia). }
    rewrite iter_plus_slot by (done || lia). simpl.
    destruct C as [|y C]; [simpl in HC; lia|].
    destruct (load_slot b k Hwf) as (x' & Hx' & ->); [lia|].
    rewrite Hw, lookup_app_r in Hx' by lia.
    replace (Z.to_nat k - length A)%nat with 0%nat in Hx' by lia.
    simpl in Hx'. simplify_eq.
    destruct (load_slot b (k + 1) Hwf) as (y' & Hy' & ->); [lia|].
    rewrite Hw, lookup_app_r in Hy' by lia.
    replace (Z.to_nat (k + 1) - length A)%nat with 1%nat in Hy' by lia.
    simpl in Hy'. simplify_eq. rewrite !bind_Returns.
    rewrite store_slot by (done || lia). rewrite bind_Returns.
    set (b1 := set_storage _ b).
    assert (Hwf1 : wf b1).
    { apply wf_set_storage; [done|]. by rewrite length_insert. }
    assert (Hw1 : window b1 = A ++ y' :: y' :: C).
    { unfold b1. rewrite window_store by (done || lia). rewrite Hw.
      rewrite insert_app_r_alt by lia.
      replace (Z.to_nat k - length A)%nat with 0%nat by lia. done. }
    change (slot b (k + 1)) with (slot b1 (k + 1)).
    rewrite store_slot by (done || (change (size b1) with (size b); lia)).
    rewrite bind_Returns.
    set (b2 := set_storage _ b1).
    assert (Hwf2 : wf b2).
    { apply wf_set_storage; [done|]. by rewrite length_insert. }
    assert (Hw2 : window b2 = (A ++ [y']) ++ x' :: C).
    { unfold b2. rewrite window_store
        by (done || (change (size b1) with (size b); lia)).
      rewrite Hw1. rewrite insert_app_r_alt by lia.
      replace (Z.to_nat (k + 1) - length A)%nat with 1%nat by lia.
      simpl. by rewrite <- app_assoc. }
    change (iter_incr b2 (slot b k)) with (iter_incr b (slot b k)).
    rewrite incr_slot, cursor_slot by (done || lia).
    change (slot b (k + 1)) with (slot b2 (k + 1)).
    destruct (IH b2 pos (k + Z.of_nat (S d)) (k + 1) (A ++ [y']) C x' fuel
                Hwf2 Hstop)
      as (st & Hrun & Hlen & Hwin); try done; try lia.
    { rewrite length_app. simpl. lia. }
    { simpl in HC. lia. }
    change (set_storage st b2) with (set_storage st b) in Hrun, Hwin.
    exists st. split; [done|]. split.
    { rewrite Hlen. unfold b2, b1. simpl. by rewrite !length_insert. }
    rewrite Hwin. simpl. by rewrite <- app_assoc.
Qed.

Lemma insert_front_tail b pos i v g (C : list Tp) :
  wf b → iter_minus b pos 1 = Returns (slot b i) → 0 ≤ i < size b →
  window b = g :: C →
  ∃ b',
    (b1 ← insert_swap_front (loop_fuel b) (begin b) pos b;
     before ← iter_minus b1 pos 1;
     store before v b1) = Returns b'
    ∧ wf b'
    ∧ size b' = size b
    ∧ capacity b' = capacity b
    ∧ window b' = take (Z.to_nat i) C ++ v :: drop (Z.to_nat i) C.
Proof.
  intros Hwf Hstop Hi Hw.
  assert (HlenC : length C = Z.to_nat (size b - 1)).
  { assert (Hl : length (window b) = S (length C)) by (by rewrite Hw).
    rewrite window_length in Hl by done. lia. }
  unfold begin. rewrite <- (cursor_0 b), cursor_slot by (done || lia).
  destruct (insert_swap_front_bubble (Z.to_nat i) b pos i 0 [] C g
              (loop_fuel b) Hwf Hstop)
    as (st & Hrun & Hlen & Hwin); try done; try lia.
  { pose proof (loop_fuel_enough b Hwf). lia. }
  rewrite Hrun, bind_Returns.
  set (b1 := set_storage st b) in *.
  assert (Hwf1 : wf b1) by (by apply wf_set_storage).
  change (iter_minus b1 pos 1) with (iter_minus b pos 1).
  rewrite Hstop, bind_Returns.
  change (slot b i) with (slot b1 i).
  rewrite store_slot by (done || (change (size b1) with (size b); lia)).
  set (b2 := set_storage _ b1).
  assert (Hwf2 : wf b2).
  { apply wf_set_storage; [done|]. by rewrite length_insert. }
  exists b2. do 4 (split; [done|]).
  unfold b2. rewrite window_store
    by (done || (change (size b1) with (size b); lia)).
  rewrite Hwin. simpl.
  rewrite insert_app_r_alt by (rewrite length_take; lia).
  rewrite length_take.
  replace (Z.to_nat i - Z.to_nat i `min` length C)%nat with 0%nat by lia.
  done.
Qed.

Lemma iter_minus_rotated b i :
  wf b → finish b = end_of_storage b → 0 ≤ i < size b →
  iter_minus (set_start (slot b (size b - 1)) b) (slot b i) 1
  = Returns (slot (set_start (slot b (size b - 1)) b) i).
Proof.
  intros Hwf Hfull Hi.
  destruct (window_rotate b (size b - 1) Hwf Hfull) as (Hwf1 & Hsz1 & _);
    [lia|].
  set (b1 := set_start (slot b (size b - 1)) b) in *.
  pose proof (size_bounds b Hwf) as Hb. rewrite capacity_wf in Hb by done.
  assert (Hmax : end_of_storage b - start_of_storage b ≤ PTRDIFF_MAX)
    by (by destruct Hwf as (_ & ? & _)).
  unfold PTRDIFF_MAX in Hmax.
  unfold iter_minus, iter_minus_assign.
  rewrite !decide_False by lia.
  unfold minus_assign_pos. rewrite mod_size_wf by (done || lia).
  rewrite bind_Returns, Hsz1.
  change (to_size_t 1) with 1.
  pose proof (slot_range b i Hwf Hi) as Hr.
  pose proof (size_cases _ Hwf) as Hs. unfold wf in Hwf.
  change (end_of_storage b1) with (end_of_storage b).
  change (start_of_storage b1) with (start_of_storage b).
  rewrite (decide_False (P := slot b i = end_of_storage b)) by lia.
  destruct (decide (size b = 1)) as [H1|H1].
  - rewrite H1. change (1 `mod` 1) with 0.
    unfold b1, slot. simpl. unfold slot.
    repeat case_decide; try lia; f_equal; lia.
  - rewrite Z.mod_small by lia.
    unfold b1, slot. simpl. unfold slot.
    repeat case_decide; try lia; f_equal; lia.
Qed.

(** X28.  [insert(pos, value)] at the element of place [i], when the code
    takes its second branch (the distance from [begin()] to [pos] is below
    the one from [pos] to [end()]): the value comes to place [i] and the
    elements from [i] on move up by one.  A full buffer keeps its size and
    loses its last element; a buffer that is not full grows by one, when
    the slot in front of the front marker is not the one the back marker
    points at. *)
Theorem insert_second_branch b i v :
  wf b → 0 ≤ i < size b →
  iter_diff b (cursor b i) (begin b) < iter_diff b (end_ b) (cursor b i) →
  finish b = end_of_storage b
  ∨ (if decide (start b ≠ start_of_storage b) then start b - 1
     else end_of_storage b - 1) ≠ finish b →
  ∃ b' l,
    insert (cursor b i) v b = Returns b'
    ∧ elements b = Returns l
    ∧ let kept :=
        if decide (finish b = end_of_storage b) then take (length l - 1) l
        else l in
      elements b'
      = Returns (take (Z.to_nat i) kept ++ v :: drop (Z.to_nat i) kept)
      ∧ size b' = Z.of_nat (length kept) + 1
      ∧ capacity b' = capacity b.
Proof.
  intros Hwf Hi Hbranch Hroom.
  rewrite cursor_slot in * by lia.
  pose proof (size_bounds b Hwf) as Hb.
  unfold insert. rewrite decide_False by lia. cbv zeta.
  destruct (decide (finish b = end_of_storage b)) as [Hfull|Hnf].
  - rewrite decr_end by (done || lia).
    destruct (window_rotate b (size b - 1) Hwf Hfull) as (Hwf1 & Hsz1 & Hw1);
      [lia|].
    destruct (load_slot b (size b - 1) Hwf) as (g & Hg & _); [lia|].
    rewrite (drop_S _ g) in Hw1 by done.
    rewrite (drop_ge (window b)) in Hw1 by (rewrite window_length by done; lia).
    destruct (insert_front_tail _ (slot b i) i v g _ Hwf1
                (iter_minus_rotated b i Hwf Hfull Hi) ltac:(lia) Hw1)
      as (b' & Hrun & Hwf' & Hsz & Hc & Hw).
    exists b', (window b). split; [done|].
    rewrite !elements_window by done. split; [done|].
    rewrite window_length by done.
    replace (Z.to_nat (size b) - 1)%nat with (Z.to_nat (size b - 1)) by lia.
    split; [by rewrite Hw|]. split; [|done].
    rewrite length_take, window_length by done. lia.
  - destruct Hroom as [?|Hroom]; [done|].
    destruct (window_extend_front b Hwf Hnf Hroom)
      as (Hwf1 & Hsz1 & Hslot & g & Hw1).
    set (b1 := if decide (start b ≠ start_of_storage b)
               then set_start (start b - 1) b
               else set_start (end_of_storage b - 1) b) in *.
    assert (Hstop : iter_minus b1 (slot b i) 1 = Returns (slot b1 i)).
    { rewrite <- Hslot by done.
      rewrite <- (cursor_slot b1 (i + 1)) by lia.
      rewrite iter_minus_cursor by (done || lia).
      rewrite cursor_slot by lia. do 2 f_equal. lia. }
    destruct (insert_front_tail b1 (slot b i) i v g _ Hwf1 Hstop ltac:(lia) Hw1)
      as (b' & Hrun & Hwf' & Hsz & Hc & Hw).
    exists b', (window b). split; [done|].
    rewrite !elements_window by done. split; [done|].
    split; [by rewrite Hw|]. split.
    + rewrite window_length by done. lia.
    + rewrite Hc. unfold b1. by case_decide.
Qed.

(** *** erase, second branch, on a full buffer *)

Lemma slot_0 b : wf b → 0 < size b → slot b 0 = begin b.
Proof.
  intros Hwf Hs. unfold begin. rewrite <- (cursor_0 b) by done.
  by rewrite cursor_slot by lia.
Qed.

(** The loop of the second branch carries the erased element down to the
    front, moving the elements in front of it up by one. *)
Lemma erase_swap_down_bubble (B : list Tp) : ∀ b (C : list Tp) x fuel,
  wf b →
  window b = B ++ x :: C → Z.of_nat (length B) < size b →
  (length B < fuel)%nat →
  ∃ st,
    erase_swap_down fuel (slot b (Z.of_nat (length B))) (begin b) b
    = Returns (set_storage st b)
    ∧ length st = length (storage b)
    ∧ window (set_storage st b) = x :: B ++ C.
Proof.
  induction B as [|y B IH] using rev_ind; intros b C x fuel Hwf Hw Hlt Hfuel.
  - destruct fuel as [|fuel]; [simpl in Hfuel; lia|]. simpl.
    rewrite decide_True by (apply slot_0; (done || lia)).
    exists (storage b). split; [by destruct b|]. split; [done|].
    simpl in Hw. rewrite <- Hw. by destruct b.
  - rewrite length_app in *. simpl in *.
    destruct fuel as [|fuel]; [lia|]. simpl.
    set (k := Z.of_nat (length B + 1)) in *.
    rewrite decide_False.
    2:{ rewrite <- slot_0 by (done || lia).
        intros Heq. apply slot_inj in Heq; (done || lia). }
    assert (Hprev : iter_minus b (slot b k) 1 = Returns (slot b (k - 1))).
    { rewrite <- (cursor_slot b k) by lia.
      rewrite iter_minus_cursor by (done || lia).
      by rewrite cursor_slot by lia. }
    rewrite Hprev, bind_Returns.
    destruct (load_slot b k Hwf) as (x' & Hx' & ->); [lia|].
    rewrite Hw, lookup_app_r in Hx' by (rewrite length_app; simpl; lia).
    rewrite length_app in Hx'. simpl in Hx'.
    replace (Z.to_nat k - (length B + 1))%nat with 0%nat in Hx' by lia.
    simpl in Hx'. simplify_eq.
    destruct (load_slot b (k - 1) Hwf) as (y' & Hy' & ->); [lia|].
    rewrite Hw, <- app_assoc, lookup_app_r in Hy' by lia.
    replace (Z.to_nat (k - 1) - length B)%nat with 0%nat in Hy' by lia.
    simpl in Hy'. simplify_eq. rewrite !bind_Returns.
    rewrite store_slot by (done || lia). rewrite bind_Returns.
    set (b1 := set_storage _ b).
    assert (Hwf1 : wf b1).
    { apply wf_set_storage; [done|]. by rewrite length_insert. }
    assert (Hw1 : window b1 = B ++ y' :: y' :: C).
    { unfold b1. rewrite window_store by (done || lia). rewrite Hw.
      rewrite <- app_assoc. rewrite insert_app_r_alt by lia.
      replace (Z.to_nat k - length B)%nat with 1%nat by lia. done. }
    change (slot b (k - 1)) with (slot b1 (k - 1)).
    rewrite store_slot by (done || (change (size b1) with (size b); lia)).
    rewrite bind_Returns.
    set (b2 := set_storage _ b1).
    assert (Hwf2 : wf b2).
    { apply wf_set_storage; [done|]. by rewrite length_insert. }
    assert (Hw2 : window b2 = B ++ x' :: y' :: C).
    { unfold b2. rewrite window_store
        by (done || (change (size b1) with (size b); lia)).
      rewrite Hw1. rewrite insert_app_r_alt by lia.
      replace (Z.to_nat (k - 1) - length B)%nat with 0%nat by lia. done. }
    change (iter_decr b2 (slot b k)) with (iter_decr b (slot b k)).
    rewrite <- (cursor_slot b k) by lia.
    rewrite decr_cursor by (done || lia).
    replace (k - 1) with (Z.of_nat (length B)) by lia.
    change (slot b (Z.of_nat (length B)))
      with (slot b2 (Z.of_nat (length B))).
    change (begin b) with (begin b2).
    destruct (IH b2 (y' :: C) x' fuel Hwf2 Hw2) as (st & Hrun & Hlen & Hwin).
    { change (size b2) with (size b). lia. }
    { lia. }
    change (set_storage st b2) with (set_storage st b) in Hrun, Hwin.
    exists st. split; [done|]. split.
    { rewrite Hlen. unfold b2, b1. simpl. by rewrite !length_insert. }
    rewrite Hwin. by rewrite <- app_assoc.
Qed.

(** A full buffer whose front marker steps to the next slot while the back
    marker takes the old front: the window loses its first element. *)
Lemma window_drop_front_full b :
  wf b → finish b = end_of_storage b → 2 ≤ size b →
  let b' := set_start (iter_incr b (begin b)) (set_finish (start b) b) in
  wf b' ∧ size b' = size b - 1 ∧ window b' = drop 1 (window b).
Proof.
  intros Hwf Hfull Hn. cbv zeta. unfold begin.
  assert (Hinc : iter_incr b (start b) = slot b 1).
  { rewrite <- (cursor_0 b) by done.
    rewrite cursor_slot, incr_slot, cursor_slot by (done || lia). done. }
  rewrite Hinc.
  pose proof (slot_range b 1 Hwf ltac:(lia)) as Hr.
  pose proof (size_cases _ Hwf) as Hs.
  set (b' := set_start (slot b 1) (set_finish (start b) b)).
  assert (Hwf' : wf b').
  { unfold b'. unfold wf in *. simpl_markers. cbn [storage set_start set_finish].
    repeat split; try lia. }
  assert (Hsz : size b' = size b - 1).
  { pose proof (size_cases _ Hwf') as Hs'. subst b'. simpl_markers.
    unfold wf in Hwf. unfold slot in *. repeat case_decide; lia. }
  do 2 (split; [done|]). apply list_eq. intros j. rewrite lookup_drop.
  destruct (decide (j < Z.to_nat (size b'))%nat) as [Hj|Hj].
  - replace j with (Z.to_nat (Z.of_nat j)) at 1 by lia.
    replace (1 + j)%nat with (Z.to_nat (Z.of_nat j + 1)) by lia.
    rewrite !window_lookup by (done || lia).
    change (storage b') with (storage b).
    change (start_of_storage b') with (start_of_storage b).
    do 2 f_equal. unfold wf, PTRDIFF_MAX in Hwf.
    unfold b', slot. simpl. unfold slot. repeat case_decide; lia.
  - rewrite !lookup_ge_None_2; [done|..]; rewrite window_length by done; lia.
Qed.

(** X29.  [erase(pos)] at the element of place [i] of a full buffer with at
    least two elements, when the code takes its second branch (the distance
    from [begin()] to [pos] is below the one from [pos] to [end()]): that
    element is removed, the others keep their order, the size goes down by
    one and the capacity stays.  The cursor returned is [pos]. *)
Theorem erase_second_branch_full b i :
  wf b → finish b = end_of_storage b → 2 ≤ size b → 0 ≤ i < size b →
  iter_diff b (cursor b i) (begin b) < iter_diff b (end_ b) (cursor b i) →
  ∃ b' l,
    erase (cursor b i) b = Returns (cursor b i, b')
    ∧ elements b = Returns l
    ∧ elements b' = Returns (take (Z.to_nat i) l ++ drop (S (Z.to_nat i)) l)
    ∧ size b' = size b - 1
    ∧ capacity b' = capacity b.
Proof.
  intros Hwf Hfull Hn Hi Hbranch.
  rewrite cursor_slot in * by lia.
  unfold erase. rewrite decide_False by lia. cbv zeta.
  destruct (load_slot b i Hwf Hi) as (x & Hx & _).
  pose proof (take_drop_middle (window b) (Z.to_nat i) x Hx) as Hw.
  symmetry in Hw.
  assert (Hlen : length (take (Z.to_nat i) (window b)) = Z.to_nat i).
  { rewrite length_take, window_length by done. lia. }
  destruct (erase_swap_down_bubble (take (Z.to_nat i) (window b)) b
              (drop (S (Z.to_nat i)) (window b)) x (loop_fuel b) Hwf Hw)
    as (st & Hrun & Hlenst & Hwin).
  { rewrite Hlen. lia. }
  { rewrite Hlen. pose proof (loop_fuel_enough b Hwf). lia. }
  rewrite Hlen, Z2Nat.id in Hrun by lia.
  rewrite Hrun, bind_Returns.
  set (b1 := set_storage st b) in *.
  assert (Hwf1 : wf b1) by (by apply wf_set_storage).
  rewrite decide_True by done.
  destruct (window_drop_front_full b1 Hwf1) as (Hwf' & Hsz & Hw');
    [done|change (size b1) with (size b); lia|].
  exists (set_start (iter_incr (set_finish (start b1) b1)
                       (begin (set_finish (start b1) b1)))
            (set_finish (start b1) b1)), (window b).
  split; [done|]. rewrite !elements_window by done.
  split; [done|]. split; [|split; [done|]].
  - change (iter_incr (set_finish (start b1) b1)
              (begin (set_finish (start b1) b1)))
      with (iter_incr b1 (begin b1)).
    by rewrite Hw', Hwin.
  - rewrite !capacity_wf by done. done.
Qed.

End Properties.

(** ** The claims on the tests' buffers *)

Lemma wf_buf_1_2_3 : wf buf_1_2_3.
Proof. unfold wf, PTRDIFF_MAX. cbn. repeat split; lia. Defined.

Lemma wf_buf_six : wf buf_six.
Proof. unfold wf, PTRDIFF_MAX. cbn. repeat split; lia. Defined.

(** C1.  [{1, 2, 3}] after [pop_back] and [pop_front] holds the one element
    [2] and is not full; [push_back(9)] then moves [finish] onto
    [end_of_storage], the mark of a full buffer: the size goes from 1 to 3
    and the stale slot of [3] is back in the window. *)
Theorem push_back_reaching_block_end :
  size (pop_front (pop_back buf_1_2_3)) = 1
  ∧ elements (pop_front (pop_back buf_1_2_3)) = Returns [2]
  ∧ ∃ b,
      pop_pop_push = Returns b
      ∧ size b = 3
      ∧ capacity b = 3
      ∧ elements b = Returns [2; 3; 9].
Proof.
  split; [by vm_compute|]. split; [by vm_compute|].
  exists (mkBuffer 4097 4099 4096 4099 [9; 2; 3]). by vm_compute.
Qed.

(** C2.  Two [erase] calls and two [pop_back] calls on [{1, 2, 3}]: the
    second [erase] steps [finish] below [start_of_storage], the pops carry
    it further down, and [size()] comes out as [2^64 - 1] on a buffer of
    capacity 3. *)
Theorem size_exceeds_capacity :
  ∃ b,
    erase_erase_pop_pop = Returns b
    ∧ capacity b = 3
    ∧ size b = 2 ^ 64 - 1
    ∧ ¬ size b ≤ capacity b.
Proof.
  exists (mkBuffer 4097 4093 4096 4099 [1; 3; 2]).
  split; [by vm_compute|]. split; [by vm_compute|]. split; [by vm_compute|].
  replace (size _) with (2 ^ 64 - 1) by (by vm_compute).
  replace (capacity _) with 3 by (by vm_compute). lia.
Qed.

(** C3.  [{1, 2, 1}] after [push_back(0)] is full with its front one slot
    into the block: [end() - begin()] is 2 and [size()] is 3. *)
Theorem distance_of_ends_full_rotated :
  ∃ b,
    push_back 0 buf_1_2_1 = Returns b
    ∧ elements b = Returns [2; 1; 0]
    ∧ size b = 3
    ∧ iter_diff b (end_ b) (begin b) = 2.
Proof. exists (mkBuffer 4097 4099 4096 4099 [0; 2; 1]). by vm_compute. Qed.

(** C4, as stated, fails: a buffer of capacity 6 that holds five elements
    keeps five elements after [assign] of [{1, ..., 9}], not the last six
    of the source. *)
Lemma assign_partly_full_counterexample :
  empty (pop_back buf_six) = false
  ∧ capacity (pop_back buf_six) = 6
  ∧ ∃ b,
      assign one_to_nine (pop_back buf_six) = Returns b
      ∧ elements b = Returns [6; 7; 8; 9; 5]
      ∧ ¬ [6; 7; 8; 9; 5] ≡ₚ drop (9 - 6) one_to_nine.
Proof.
  split; [by vm_compute|]. split; [by vm_compute|].
  exists (mkBuffer 4096 4101 4096 4102 [6; 7; 8; 9; 5; 16]).
  split; [by vm_compute|]. split; [by vm_compute|].
  intros Hp. apply Permutation_length in Hp. simpl in Hp. lia.
Qed.

Lemma assign_longer_than_capacity_witness :
  wf buf_six
  ∧ empty buf_six = false
  ∧ capacity buf_six < Z.of_nat (length one_to_nine) ≤ PTRDIFF_MAX
  ∧ ∃ b,
      assign one_to_nine buf_six = Returns b
      ∧ size b = size buf_six
      ∧ capacity b = capacity buf_six
      ∧ elements b = Returns [7; 8; 9; 4; 5; 6].
Proof.
  assert (He : empty buf_six = false) by reflexivity.
  assert (Hn : capacity buf_six < Z.of_nat (length one_to_nine) ≤ PTRDIFF_MAX)
    by (vm_compute; split; [reflexivity|discriminate]).
  split; [exact wf_buf_six|]. split; [exact He|]. split; [exact Hn|].
  exact (assign_longer_than_capacity one_to_nine buf_six wf_buf_six He Hn).
Defined.

(** The one-slot buffer [{5}] leaves the well-formed states with both
    markers still inside the block.  After [push_back(6)] both markers are
    on [end_of_storage]: [empty()] is true while [size()] is 1, and [assign]
    stores nothing.  After [erase(begin())] the front marker is on
    [end_of_storage] and the back marker on the slot: [empty()] is false
    while [size()] is 0, and [assign] divides by zero. *)
Remark assign_on_one_slot_states :
  (∃ b,
     push_back 6 buf_5 = Returns b
     ∧ empty b = true
     ∧ size b = 1
     ∧ assign one_to_nine b = Returns b)
  ∧ (∃ pos b,
       erase (begin buf_5) buf_5 = Returns (pos, b)
       ∧ empty b = false
       ∧ size b = 0
       ∧ assign one_to_nine b = Undefined).
Proof.
  split.
  - exists (mkBuffer 4097 4097 4096 4097 [6]). by vm_compute.
  - exists 4096, (mkBuffer 4097 4096 4096 4097 [5]). by vm_compute.
Qed.

(** C5.  [resize(5)] on [{1, 2, 3}] reallocates to capacity 5 and leaves the
    size 3; [resize(5, 7)] gives size 5. *)
Theorem resize_default_beyond_capacity :
  ∃ b,
    resize 5 buf_1_2_3 = Returns b
    ∧ capacity b = 5
    ∧ size b = 3
    ∧ elements b = Returns [1; 2; 3]
    ∧ ∃ b',
        resize_value 5 7 buf_1_2_3 = Returns b'
        ∧ size b' = 5
        ∧ elements b' = Returns [1; 2; 3; 7; 7].
Proof.
  exists (mkBuffer 4096 4099 4096 4101 [1; 2; 3; 0; 0]).
  do 4 (split; [by vm_compute|]).
  exists (mkBuffer 4096 4101 4096 4101 [1; 2; 3; 7; 7]). by vm_compute.
Qed.

(** C6, as stated, fails at [n = 0]: [resize(0)] leaves [{1, 2, 3}] as it
    is, and so does [resize(0, 7)]. *)
Lemma resize_zero_counterexample :
  resize 0 buf_1_2_3 = Returns buf_1_2_3
  ∧ resize_value 0 7 buf_1_2_3 = Returns buf_1_2_3
  ∧ size buf_1_2_3 = 3.
Proof. by vm_compute. Qed.

Lemma resize_not_larger_witness :
  wf buf_1_2_3
  ∧ 0 ≤ 2 ≤ size buf_1_2_3
  ∧ 2 ≤ max_size (Tp:=Z)
  ∧ ∃ b',
      resize 2 buf_1_2_3 = Returns b'
      ∧ (2 = 0 → b' = buf_1_2_3)
      ∧ (0 < 2 →
         resize_value 2 7 buf_1_2_3 = Returns b'
         ∧ size b' = 2
         ∧ capacity b' = capacity buf_1_2_3
         ∧ ∃ l, elements buf_1_2_3 = Returns l
                ∧ elements b' = Returns (take (Z.to_nat 2) l)).
Proof.
  assert (Hn : 0 ≤ 2 ≤ size buf_1_2_3)
    by (vm_compute; split; discriminate).
  assert (Hmax : 2 ≤ max_size (Tp:=Z)) by (vm_compute; discriminate).
  split; [exact wf_buf_1_2_3|]. split; [exact Hn|]. split; [exact Hmax|].
  exact (resize_not_larger buf_1_2_3 2 7 wf_buf_1_2_3 Hn Hmax).
Defined.

(** C7, as stated, fails: on [{1, 2, 3}] the indices 3 and 7 are out of
    range and [at] returns the elements at the positions 0 and 1. *)
Lemma at_out_of_range_counterexample :
  size buf_1_2_3 = 3
  ∧ at_ buf_1_2_3 3 = Returns 1
  ∧ at_ buf_1_2_3 7 = Returns 2.
Proof. by vm_compute. Qed.

Lemma at_modulo_witness :
  wf buf_1_2_3
  ∧ 0 < size buf_1_2_3
  ∧ 0 ≤ 7 < 2 ^ 64
  ∧ ∃ l x,
      elements buf_1_2_3 = Returns l
      ∧ l !! Z.to_nat (7 `mod` size buf_1_2_3) = Some x
      ∧ at_ buf_1_2_3 7 = Returns x.
Proof.
  assert (Hpos : 0 < size buf_1_2_3) by reflexivity.
  assert (Hk : 0 ≤ 7 < 2 ^ 64) by lia.
  split; [exact wf_buf_1_2_3|]. split; [exact Hpos|]. split; [exact Hk|].
  exact (at_modulo buf_1_2_3 7 wf_buf_1_2_3 Hpos Hk).
Defined.

(** C8.  [{5}] after [push_back(6)] has both markers on [end_of_storage]:
    [size()] is 1, [operator[](0)] reads the 6, and no access has left the
    block.  [reserve(12)], with 12 above the capacity 1 and not above
    [max_size()], then relocates the range from [begin()] to [end()], which
    is empty: the capacity becomes 12 and the size 0, where it was 1. *)
Theorem reserve_after_one_slot_push :
  ∃ b b',
    push_back 6 buf_5 = Returns b
    ∧ start b = end_of_storage b
    ∧ finish b = end_of_storage b
    ∧ size b = 1
    ∧ capacity b = 1
    ∧ index b 0 = Returns 6
    ∧ capacity b < 12 ≤ max_size (Tp:=Z)
    ∧ reserve 12 b = Returns b'
    ∧ capacity b' = 12
    ∧ size b' = 0
    ∧ elements b' = Returns [].
Proof.
  exists (mkBuffer 4097 4097 4096 4097 [6]).
  exists (mkBuffer 4096 4096 4096 4108 [-1; 0; 0; 0; 0; 0; 0; 0; 0; 0; 0; 0]).
  do 6 (split; [by vm_compute|]).
  split; [vm_compute; split; [reflexivity|discriminate]|].
  do 3 (split; [by vm_compute|]). by vm_compute.
Qed.

Lemma reserve_resize_length_witness :
  wf buf_1_2_3
  ∧ capacity buf_1_2_3 ≤ max_size (Tp:=Z)
  ∧ (max_size (Tp:=Z) < PTRDIFF_MAX
     ∧ reserve PTRDIFF_MAX buf_1_2_3
       = Throws (length_error "reserving overheads capacity")
     ∧ resize PTRDIFF_MAX buf_1_2_3
       = Throws (length_error "resizing overheads maximum size")
     ∧ resize_value PTRDIFF_MAX 0 buf_1_2_3
       = Throws (length_error "resizing overheads maximum size"))
  ∧ (2 ≤ capacity buf_1_2_3 ∧ reserve 2 buf_1_2_3 = Returns buf_1_2_3)
  ∧ capacity buf_1_2_3 < 12 ≤ max_size (Tp:=Z)
  ∧ ∃ b',
      reserve 12 buf_1_2_3 = Returns b'
      ∧ capacity b' = 12
      ∧ size b' = size buf_1_2_3
      ∧ ∃ l, elements buf_1_2_3 = Returns l ∧ elements b' = Returns l.
Proof.
  assert (Hcap : capacity buf_1_2_3 ≤ max_size (Tp:=Z))
    by (vm_compute; discriminate).
  assert (Hbig : max_size (Tp:=Z) < PTRDIFF_MAX) by reflexivity.
  assert (Hlow : 2 ≤ capacity buf_1_2_3) by (vm_compute; discriminate).
  assert (Hin : capacity buf_1_2_3 < 12 ≤ max_size (Tp:=Z))
    by (vm_compute; split; [reflexivity|discriminate]).
  split; [exact wf_buf_1_2_3|]. split; [exact Hcap|].
  split.
  { split; [exact Hbig|].
    exact (proj1 (reserve_resize_length buf_1_2_3 PTRDIFF_MAX 0
                    wf_buf_1_2_3 Hcap) Hbig). }
  split.
  { split; [exact Hlow|].
    exact (proj1 (proj2 (reserve_resize_length buf_1_2_3 2 0
                           wf_buf_1_2_3 Hcap)) Hlow). }
  split; [exact Hin|].
  exact (proj2 (proj2 (reserve_resize_length buf_1_2_3 12 0
                         wf_buf_1_2_3 Hcap)) Hin).
Defined.

(** C9.  [pop_front] on the full buffer [{0, 1, 2, 3, 4}] moves the front
    marker and leaves the size 5: the popped [0] is now the last element.
    [pop_back] on the same buffer gives size 4. *)
Theorem pop_front_of_full_buffer :
  size buf_0_to_4 = 5
  ∧ size (pop_front buf_0_to_4) = 5
  ∧ elements (pop_front buf_0_to_4) = Returns [1; 2; 3; 4; 0]
  ∧ size (pop_back buf_0_to_4) = 4
  ∧ elements (pop_back buf_0_to_4) = Returns [0; 1; 2; 3].
Proof. by vm_compute. Qed.

(** C10.  On [{1, 2, 3}], [cend()] is the cursor [cbegin()], not [end()]:
    the walk from [cbegin()] to [cend()] visits no element of the three. *)
Theorem cend_of_nonempty_buffer :
  size buf_1_2_3 = 3
  ∧ cbegin buf_1_2_3 = begin buf_1_2_3
  ∧ cend buf_1_2_3 = cbegin buf_1_2_3
  ∧ cend buf_1_2_3 ≠ end_ buf_1_2_3
  ∧ traverse (loop_fuel buf_1_2_3) buf_1_2_3
      (cbegin buf_1_2_3) (cend buf_1_2_3) = Returns []
  ∧ elements buf_1_2_3 = Returns [1; 2; 3].
Proof. do 3 (split; [by vm_compute|]). split; [|by vm_compute]. by vm_compute. Qed.

(** ** The further properties on concrete buffers *)

Lemma wf_buf_1_2 : wf buf_1_2.
Proof.
  unfold wf, PTRDIFF_MAX. vm_compute.
  repeat split; first [reflexivity | discriminate | done].
Defined.

Lemma wf_buf_1 : wf buf_1.
Proof.
  unfold wf, PTRDIFF_MAX. vm_compute.
  repeat split; first [reflexivity | discriminate | done].
Defined.

Lemma wf_buf_5 : wf buf_5.
Proof.
  unfold wf, PTRDIFF_MAX. vm_compute.
  repeat split; first [reflexivity | discriminate | done].
Defined.

Lemma wf_default : wf (CircularBuffer_default (Tp:=Z)).
Proof.
  unfold wf, PTRDIFF_MAX. vm_compute.
  repeat split; first [reflexivity | discriminate | done].
Defined.

Lemma of_list_elements_witness :
  Z.of_nat (length [1; 2; 3]) ≤ PTRDIFF_MAX
  ∧ size (of_list [1; 2; 3]) = Z.of_nat (length [1; 2; 3])
  ∧ capacity (of_list [1; 2; 3]) = Z.of_nat (length [1; 2; 3])
  ∧ elements (of_list [1; 2; 3]) = Returns [1; 2; 3].
Proof.
  assert (Hn : Z.of_nat (length [1; 2; 3]) ≤ PTRDIFF_MAX)
    by (vm_compute; discriminate).
  split; [exact Hn|].
  exact (of_list_elements [1; 2; 3] Hn).
Defined.

Lemma sized_constructors_witness :
  0 ≤ 3 ≤ PTRDIFF_MAX
  ∧ (size (CircularBuffer_n (Tp:=Z) 3) = 0
     ∧ capacity (CircularBuffer_n (Tp:=Z) 3) = 3
     ∧ empty (CircularBuffer_n (Tp:=Z) 3) = true
     ∧ elements (CircularBuffer_n (Tp:=Z) 3) = Returns [])
  ∧ (size (CircularBuffer_n_value 3 7) = 3
     ∧ capacity (CircularBuffer_n_value 3 7) = 3
     ∧ elements (CircularBuffer_n_value 3 7)
       = Returns (replicate (Z.to_nat 3) 7)).
Proof.
  assert (Hn : 0 ≤ 3 ≤ PTRDIFF_MAX) by (unfold PTRDIFF_MAX; lia).
  split; [exact Hn|].
  exact (sized_constructors 3 7 Hn).
Defined.

Lemma size_capacity_empty_witness :
  wf buf_1_2
  ∧ 0 ≤ size buf_1_2 ≤ capacity buf_1_2
  ∧ (capacity buf_1_2 = 0 → size buf_1_2 = 0)
  ∧ (empty buf_1_2 = true ↔ size buf_1_2 = 0).
Proof.
  split; [exact wf_buf_1_2|].
  exact (size_capacity_empty buf_1_2 wf_buf_1_2).
Defined.

Lemma element_access_witness :
  wf buf_1_2_3
  ∧ 0 < size buf_1_2_3
  ∧ ∃ l,
      elements buf_1_2_3 = Returns l
      ∧ (∃ x, head l = Some x ∧ front buf_1_2_3 = Returns x)
      ∧ (∃ y, last l = Some y ∧ back buf_1_2_3 = Returns y)
      ∧ ∀ k, 0 ≤ k < size buf_1_2_3 →
          ∃ z, l !! Z.to_nat k = Some z ∧ index buf_1_2_3 k = Returns z.
Proof.
  assert (Hpos : 0 < size buf_1_2_3) by reflexivity.
  split; [exact wf_buf_1_2_3|]. split; [exact Hpos|].
  exact (element_access buf_1_2_3 wf_buf_1_2_3 Hpos).
Defined.

Lemma push_back_appends_witness :
  wf buf_1
  ∧ finish buf_1 ≠ end_of_storage buf_1
  ∧ finish buf_1 + 1 ≠ start buf_1
  ∧ (finish buf_1 + 1 ≠ end_of_storage buf_1
     ∨ start buf_1 = start_of_storage buf_1)
  ∧ ∃ b' l,
      push_back 9 buf_1 = Returns b'
      ∧ elements buf_1 = Returns l
      ∧ elements b' = Returns (l ++ [9])
      ∧ size b' = size buf_1 + 1
      ∧ capacity b' = capacity buf_1.
Proof.
  assert (H1 : finish buf_1 ≠ end_of_storage buf_1) by (vm_compute; discriminate).
  assert (H2 : finish buf_1 + 1 ≠ start buf_1) by (vm_compute; discriminate).
  assert (H3 : finish buf_1 + 1 ≠ end_of_storage buf_1
               ∨ start buf_1 = start_of_storage buf_1)
    by (left; vm_compute; discriminate).
  split; [exact wf_buf_1|]. split; [exact H1|]. split; [exact H2|].
  split; [exact H3|].
  exact (push_back_appends buf_1 9 wf_buf_1 H1 H2 H3).
Defined.

Lemma push_back_evicts_front_witness :
  wf buf_1_2_3
  ∧ finish buf_1_2_3 = end_of_storage buf_1_2_3
  ∧ 2 ≤ capacity buf_1_2_3
  ∧ ∃ b' l,
      push_back 4 buf_1_2_3 = Returns b'
      ∧ elements buf_1_2_3 = Returns l
      ∧ elements b' = Returns (drop 1 l ++ [4])
      ∧ size b' = size buf_1_2_3
      ∧ capacity b' = capacity buf_1_2_3.
Proof.
  assert (H1 : finish buf_1_2_3 = end_of_storage buf_1_2_3) by reflexivity.
  assert (H2 : 2 ≤ capacity buf_1_2_3) by (vm_compute; discriminate).
  split; [exact wf_buf_1_2_3|]. split; [exact H1|]. split; [exact H2|].
  exact (push_back_evicts_front buf_1_2_3 4 wf_buf_1_2_3 H1 H2).
Defined.

Lemma pop_back_removes_last_witness :
  wf buf_1_2_3
  ∧ empty buf_1_2_3 = false
  ∧ ∃ l,
      elements buf_1_2_3 = Returns l
      ∧ elements (pop_back buf_1_2_3) = Returns (take (length l - 1) l)
      ∧ size (pop_back buf_1_2_3) = size buf_1_2_3 - 1
      ∧ capacity (pop_back buf_1_2_3) = capacity buf_1_2_3.
Proof.
  assert (He : empty buf_1_2_3 = false) by reflexivity.
  split; [exact wf_buf_1_2_3|]. split; [exact He|].
  exact (proj2 (pop_back_removes_last buf_1_2_3 wf_buf_1_2_3) He).
Defined.

Lemma pop_front_removes_first_witness :
  wf buf_1_2
  ∧ empty buf_1_2 = false
  ∧ finish buf_1_2 ≠ end_of_storage buf_1_2
  ∧ ∃ l,
      elements buf_1_2 = Returns l
      ∧ elements (pop_front buf_1_2) = Returns (drop 1 l)
      ∧ size (pop_front buf_1_2) = size buf_1_2 - 1
      ∧ capacity (pop_front buf_1_2) = capacity buf_1_2.
Proof.
  assert (He : empty buf_1_2 = false) by reflexivity.
  assert (Hf : finish buf_1_2 ≠ end_of_storage buf_1_2)
    by (vm_compute; discriminate).
  split; [exact wf_buf_1_2|]. split; [exact He|]. split; [exact Hf|].
  exact (pop_front_removes_first buf_1_2 wf_buf_1_2 He Hf).
Defined.

Lemma push_front_evicts_back_witness :
  wf buf_1_2_3
  ∧ finish buf_1_2_3 = end_of_storage buf_1_2_3
  ∧ 1 ≤ capacity buf_1_2_3
  ∧ ∃ b' l,
      push_front 0 buf_1_2_3 = Returns b'
      ∧ elements buf_1_2_3 = Returns l
      ∧ elements b' = Returns (0 :: take (length l - 1) l)
      ∧ size b' = size buf_1_2_3
      ∧ capacity b' = capacity buf_1_2_3.
Proof.
  assert (H1 : finish buf_1_2_3 = end_of_storage buf_1_2_3) by reflexivity.
  assert (H2 : 1 ≤ capacity buf_1_2_3) by (vm_compute; discriminate).
  split; [exact wf_buf_1_2_3|]. split; [exact H1|]. split; [exact H2|].
  exact (push_front_evicts_back buf_1_2_3 0 wf_buf_1_2_3 H1 H2).
Defined.

Lemma push_front_prepends_witness :
  wf buf_1
  ∧ finish buf_1 ≠ end_of_storage buf_1
  ∧ (if decide (start buf_1 ≠ start_of_storage buf_1) then start buf_1 - 1
     else end_of_storage buf_1 - 1) ≠ finish buf_1
  ∧ ∃ b' l,
      push_front 0 buf_1 = Returns b'
      ∧ elements buf_1 = Returns l
      ∧ elements b' = Returns (0 :: l)
      ∧ size b' = size buf_1 + 1
      ∧ capacity b' = capacity buf_1.
Proof.
  assert (H1 : finish buf_1 ≠ end_of_storage buf_1) by (vm_compute; discriminate).
  assert (H2 : (if decide (start buf_1 ≠ start_of_storage buf_1)
                then start buf_1 - 1
                else end_of_storage buf_1 - 1) ≠ finish buf_1)
    by (vm_compute; discriminate).
  split; [exact wf_buf_1|]. split; [exact H1|]. split; [exact H2|].
  exact (push_front_prepends buf_1 0 wf_buf_1 H1 H2).
Defined.

Lemma push_pop_round_trip_witness :
  wf buf_1
  ∧ finish buf_1 ≠ end_of_storage buf_1
  ∧ (∃ b', push_back 9 buf_1 = Returns b'
           ∧ elements (pop_back b') = elements buf_1
           ∧ size (pop_back b') = size buf_1)
  ∧ (∃ b', push_front 9 buf_1 = Returns b'
           ∧ elements (pop_front b') = elements buf_1
           ∧ size (pop_front b') = size buf_1).
Proof.
  assert (H1 : finish buf_1 ≠ end_of_storage buf_1) by (vm_compute; discriminate).
  assert (H2 : finish buf_1 + 1 ≠ start buf_1) by (vm_compute; discriminate).
  assert (H3 : finish buf_1 + 1 ≠ end_of_storage buf_1
               ∨ start buf_1 = start_of_storage buf_1)
    by (left; vm_compute; discriminate).
  assert (H4 : (if decide (start buf_1 ≠ start_of_storage buf_1)
                then start buf_1 - 1
                else end_of_storage buf_1 - 1) ≠ finish buf_1)
    by (vm_compute; discriminate).
  split; [exact wf_buf_1|]. split; [exact H1|]. split.
  - exact (proj1 (push_pop_round_trip buf_1 9 wf_buf_1 H1) H2 H3).
  - exact (proj2 (push_pop_round_trip buf_1 9 wf_buf_1 H1) H4).
Defined.

Lemma ring_keeps_latest_witness :
  2 ≤ 3 ≤ PTRDIFF_MAX
  ∧ ∃ b',
      push_back_all [1; 2; 3; 4; 5] (CircularBuffer_n 3) = Returns b'
      ∧ capacity b' = 3
      ∧ size b' = Z.min 3 (Z.of_nat (length [1; 2; 3; 4; 5]))
      ∧ elements b'
        = Returns (drop (length [1; 2; 3; 4; 5] - Z.to_nat 3) [1; 2; 3; 4; 5]).
Proof.
  assert (Hn : 2 ≤ 3 ≤ PTRDIFF_MAX) by (unfold PTRDIFF_MAX; lia).
  split; [exact Hn|].
  exact (ring_keeps_latest 3 [1; 2; 3; 4; 5] Hn).
Defined.

Lemma push_without_slots_witness :
  wf (CircularBuffer_default (Tp:=Z))
  ∧ capacity (CircularBuffer_default (Tp:=Z)) = 0
  ∧ push_back 1 CircularBuffer_default = Undefined
  ∧ push_front 1 CircularBuffer_default = Undefined.
Proof.
  assert (Hc : capacity (CircularBuffer_default (Tp:=Z)) = 0) by reflexivity.
  split; [exact wf_default|]. split; [exact Hc|].
  exact (push_without_slots CircularBuffer_default 1 wf_default Hc).
Defined.

Lemma push_back_capacity_one_witness :
  wf buf_5
  ∧ capacity buf_5 = 1
  ∧ finish buf_5 = end_of_storage buf_5
  ∧ ∃ b',
      push_back 6 buf_5 = Returns b'
      ∧ size b' = 1
      ∧ index b' 0 = Returns 6
      ∧ elements b' = Returns []
      ∧ front b' = Undefined
      ∧ back b' = Undefined
      ∧ push_back 7 b' = Undefined.
Proof.
  assert (Hc : capacity buf_5 = 1) by reflexivity.
  assert (Hf : finish buf_5 = end_of_storage buf_5) by reflexivity.
  split; [exact wf_buf_5|]. split; [exact Hc|]. split; [exact Hf|].
  exact (push_back_capacity_one buf_5 6 7 wf_buf_5 Hc Hf).
Defined.

Lemma incr_decr_inverse_witness :
  wf buf_1_2_3
  ∧ 0 ≤ 1 < size buf_1_2_3
  ∧ 0 < 3 ≤ size buf_1_2_3
  ∧ iter_decr buf_1_2_3 (iter_incr buf_1_2_3 (cursor buf_1_2_3 1))
    = cursor buf_1_2_3 1
  ∧ iter_incr buf_1_2_3 (iter_decr buf_1_2_3 (cursor buf_1_2_3 3))
    = cursor buf_1_2_3 3.
Proof.
  assert (Hi : 0 ≤ 1 < size buf_1_2_3) by (change (size buf_1_2_3) with 3; lia).
  assert (Hj : 0 < 3 ≤ size buf_1_2_3) by (change (size buf_1_2_3) with 3; lia).
  split; [exact wf_buf_1_2_3|]. split; [exact Hi|]. split; [exact Hj|].
  exact (incr_decr_inverse buf_1_2_3 1 3 wf_buf_1_2_3 Hi Hj).
Defined.

Lemma cursor_plus_minus_witness :
  wf buf_1_2_3
  ∧ 0 ≤ 2 < size buf_1_2_3
  ∧ iter_plus buf_1_2_3 (cursor buf_1_2_3 0) 2
    = Returns (cursor buf_1_2_3 (0 + 2))
  ∧ iter_minus buf_1_2_3 (cursor buf_1_2_3 3) 2
    = Returns (cursor buf_1_2_3 (3 - 2)).
Proof.
  assert (Hn : 0 ≤ 2 < size buf_1_2_3) by (change (size buf_1_2_3) with 3; lia).
  assert (Hi : 0 + 2 < size buf_1_2_3) by (change (size buf_1_2_3) with 3; lia).
  assert (Hj : 2 ≤ 3 ≤ size buf_1_2_3) by (change (size buf_1_2_3) with 3; lia).
  split; [exact wf_buf_1_2_3|]. split; [exact Hn|]. split.
  - exact (proj1 (cursor_plus_minus buf_1_2_3 0 3 2 wf_buf_1_2_3 Hn)
             ltac:(lia) Hi).
  - exact (proj2 (cursor_plus_minus buf_1_2_3 0 3 2 wf_buf_1_2_3 Hn) Hj).
Defined.

Lemma iter_diff_ordered_witness :
  wf buf_1_2
  ∧ (finish buf_1_2 ≠ end_of_storage buf_1_2
     ∨ start buf_1_2 = start_of_storage buf_1_2)
  ∧ 0 ≤ 1 ≤ 2
  ∧ 2 ≤ size buf_1_2
  ∧ iter_diff buf_1_2 (cursor buf_1_2 2) (cursor buf_1_2 1) = 2 - 1.
Proof.
  assert (H1 : finish buf_1_2 ≠ end_of_storage buf_1_2
               ∨ start buf_1_2 = start_of_storage buf_1_2)
    by (left; vm_compute; discriminate).
  assert (H2 : 0 ≤ 1 ≤ 2) by lia.
  assert (H3 : 2 ≤ size buf_1_2) by (change (size buf_1_2) with 2; lia).
  split; [exact wf_buf_1_2|]. split; [exact H1|]. split; [exact H2|].
  split; [exact H3|].
  exact (iter_diff_ordered buf_1_2 1 2 wf_buf_1_2 H1 H2 H3).
Defined.

Lemma iter_order_witness :
  wf buf_1_2_3
  ∧ (finish buf_1_2_3 ≠ end_of_storage buf_1_2_3
     ∨ start buf_1_2_3 = start_of_storage buf_1_2_3)
  ∧ 0 ≤ 1 ≤ size buf_1_2_3
  ∧ 0 ≤ 3 ≤ size buf_1_2_3
  ∧ iter_lt buf_1_2_3 (cursor buf_1_2_3 1) (cursor buf_1_2_3 3)
    = bool_decide (1 < 3)
  ∧ iter_gt buf_1_2_3 (cursor buf_1_2_3 1) (cursor buf_1_2_3 3)
    = bool_decide (3 < 1)
  ∧ iter_le buf_1_2_3 (cursor buf_1_2_3 1) (cursor buf_1_2_3 3)
    = bool_decide (1 ≤ 3)
  ∧ iter_ge buf_1_2_3 (cursor buf_1_2_3 1) (cursor buf_1_2_3 3)
    = bool_decide (3 ≤ 1).
Proof.
  assert (H1 : finish buf_1_2_3 ≠ end_of_storage buf_1_2_3
               ∨ start buf_1_2_3 = start_of_storage buf_1_2_3)
    by (right; reflexivity).
  assert (Hi : 0 ≤ 1 ≤ size buf_1_2_3) by (change (size buf_1_2_3) with 3; lia).
  assert (Hj : 0 ≤ 3 ≤ size buf_1_2_3) by (change (size buf_1_2_3) with 3; lia).
  split; [exact wf_buf_1_2_3|]. split; [exact H1|]. split; [exact Hi|].
  split; [exact Hj|].
  exact (iter_order buf_1_2_3 1 3 wf_buf_1_2_3 H1 Hi Hj).
Defined.

Lemma cursor_by_increments_witness :
  wf buf_1_2_3
  ∧ 0 ≤ 2 ≤ size buf_1_2_3
  ∧ Nat.iter (Z.to_nat 2) (iter_incr buf_1_2_3) (begin buf_1_2_3)
    = cursor buf_1_2_3 2
  ∧ (2 < size buf_1_2_3 ↔ cursor buf_1_2_3 2 ≠ end_ buf_1_2_3).
Proof.
  assert (Hi : 0 ≤ 2 ≤ size buf_1_2_3) by (change (size buf_1_2_3) with 3; lia).
  split; [exact wf_buf_1_2_3|]. split; [exact Hi|].
  exact (cursor_by_increments buf_1_2_3 2 wf_buf_1_2_3 Hi).
Defined.

Lemma assign_shorter_than_size_witness :
  wf buf_1_2_3
  ∧ empty buf_1_2_3 = false
  ∧ Z.of_nat (length [7; 8]) ≤ size buf_1_2_3
  ∧ ∃ b' l,
      assign [7; 8] buf_1_2_3 = Returns b'
      ∧ elements buf_1_2_3 = Returns l
      ∧ elements b' = Returns ([7; 8] ++ drop (length [7; 8]) l)
      ∧ size b' = size buf_1_2_3
      ∧ capacity b' = capacity buf_1_2_3.
Proof.
  assert (He : empty buf_1_2_3 = false) by reflexivity.
  assert (Hn : Z.of_nat (length [7; 8]) ≤ size buf_1_2_3)
    by (vm_compute; discriminate).
  split; [exact wf_buf_1_2_3|]. split; [exact He|]. split; [exact Hn|].
  exact (assign_shorter_than_size [7; 8] buf_1_2_3 wf_buf_1_2_3 He Hn).
Defined.

Lemma assign_to_empty_witness :
  empty (CircularBuffer_n (Tp:=Z) 3) = true
  ∧ assign one_to_nine (CircularBuffer_n 3) = Returns (CircularBuffer_n 3).
Proof.
  assert (He : empty (CircularBuffer_n (Tp:=Z) 3) = true) by reflexivity.
  split; [exact He|].
  exact (proj1 (assign_to_empty one_to_nine (CircularBuffer_n 3)) He).
Defined.

Lemma assign_n_value_fills_witness :
  wf buf_1_2_3
  ∧ 0 ≤ 2
  ∧ ∃ b' l,
      assign_n_value 2 7 buf_1_2_3 = Returns b'
      ∧ elements buf_1_2_3 = Returns l
      ∧ elements b'
        = Returns (replicate (Z.to_nat (Z.min 2 (size buf_1_2_3))) 7
                   ++ drop (Z.to_nat (Z.min 2 (size buf_1_2_3))) l)
      ∧ size b' = size buf_1_2_3
      ∧ capacity b' = capacity buf_1_2_3.
Proof.
  assert (Hn : 0 ≤ 2) by lia.
  split; [exact wf_buf_1_2_3|]. split; [exact Hn|].
  exact (assign_n_value_fills 2 7 buf_1_2_3 wf_buf_1_2_3 Hn).
Defined.

Lemma shrink_to_fit_capacity_witness :
  wf buf_1_2
  ∧ ∃ b' l,
      shrink_to_fit buf_1_2 = Returns b'
      ∧ capacity b' = size buf_1_2
      ∧ size b' = size buf_1_2
      ∧ elements buf_1_2 = Returns l
      ∧ elements b' = Returns l.
Proof.
  split; [exact wf_buf_1_2|].
  exact (shrink_to_fit_capacity buf_1_2 wf_buf_1_2).
Defined.

Lemma reserve_then_shrink_witness :
  wf buf_1_2
  ∧ capacity buf_1_2 < 12 ≤ max_size (Tp:=Z)
  ∧ ∃ b1 b2,
      reserve 12 buf_1_2 = Returns b1
      ∧ capacity b1 = 12
      ∧ shrink_to_fit b1 = Returns b2
      ∧ capacity b2 = size buf_1_2
      ∧ size b2 = size buf_1_2
      ∧ elements b2 = elements buf_1_2.
Proof.
  assert (Hn : capacity buf_1_2 < 12 ≤ max_size (Tp:=Z))
    by (vm_compute; split; [reflexivity|discriminate]).
  split; [exact wf_buf_1_2|]. split; [exact Hn|].
  exact (reserve_then_shrink buf_1_2 12 wf_buf_1_2 Hn).
Defined.

Lemma resize_value_beyond_capacity_witness :
  wf buf_1_2_3
  ∧ capacity buf_1_2_3 < 5 ≤ max_size (Tp:=Z)
  ∧ ∃ b' l,
      resize_value 5 7 buf_1_2_3 = Returns b'
      ∧ capacity b' = 5
      ∧ size b' = 5
      ∧ elements buf_1_2_3 = Returns l
      ∧ elements b' = Returns (l ++ replicate (Z.to_nat 5 - length l) 7).
Proof.
  assert (Hn : capacity buf_1_2_3 < 5 ≤ max_size (Tp:=Z))
    by (vm_compute; split; [reflexivity|discriminate]).
  split; [exact wf_buf_1_2_3|]. split; [exact Hn|].
  exact (resize_value_beyond_capacity buf_1_2_3 5 7 wf_buf_1_2_3 Hn).
Defined.

Lemma reverse_elements_reverse_witness :
  wf buf_1_2_3
  ∧ (finish buf_1_2_3 ≠ end_of_storage buf_1_2_3
     ∨ start buf_1_2_3 = start_of_storage buf_1_2_3)
  ∧ ∃ l,
      elements buf_1_2_3 = Returns l
      ∧ reverse_elements buf_1_2_3 = Returns (reverse l).
Proof.
  assert (H1 : finish buf_1_2_3 ≠ end_of_storage buf_1_2_3
               ∨ start buf_1_2_3 = start_of_storage buf_1_2_3)
    by (right; reflexivity).
  split; [exact wf_buf_1_2_3|]. split; [exact H1|].
  exact (reverse_elements_reverse buf_1_2_3 wf_buf_1_2_3 H1).
Defined.

Lemma operator_eq_elements_witness :
  wf buf_1_2_3
  ∧ wf buf_1_2
  ∧ ∃ la lb,
      elements buf_1_2_3 = Returns la
      ∧ elements buf_1_2 = Returns lb
      ∧ operator_eq buf_1_2_3 buf_1_2 = Returns (bool_decide (la = lb))
      ∧ operator_ne buf_1_2_3 buf_1_2 = Returns (bool_decide (la ≠ lb)).
Proof.
  split; [exact wf_buf_1_2_3|]. split; [exact wf_buf_1_2|].
  exact (operator_eq_elements buf_1_2_3 buf_1_2 wf_buf_1_2_3 wf_buf_1_2).
Defined.

Lemma insert_second_branch_witness :
  wf buf_six
  ∧ 0 ≤ 2 < size buf_six
  ∧ iter_diff buf_six (cursor buf_six 2) (begin buf_six)
    < iter_diff buf_six (end_ buf_six) (cursor buf_six 2)
  ∧ (finish buf_six = end_of_storage buf_six
     ∨ (if decide (start buf_six ≠ start_of_storage buf_six)
        then start buf_six - 1
        else end_of_storage buf_six - 1) ≠ finish buf_six)
  ∧ ∃ b' l,
      insert (cursor buf_six 2) 99 buf_six = Returns b'
      ∧ elements buf_six = Returns l
      ∧ let kept :=
          if decide (finish buf_six = end_of_storage buf_six)
          then take (length l - 1) l else l in
        elements b'
        = Returns (take (Z.to_nat 2) kept ++ 99 :: drop (Z.to_nat 2) kept)
        ∧ size b' = Z.of_nat (length kept) + 1
        ∧ capacity b' = capacity buf_six.
Proof.
  assert (Hi : 0 ≤ 2 < size buf_six) by (change (size buf_six) with 6; lia).
  assert (Hb : iter_diff buf_six (cursor buf_six 2) (begin buf_six)
               < iter_diff buf_six (end_ buf_six) (cursor buf_six 2))
    by reflexivity.
  assert (Hr : finish buf_six = end_of_storage buf_six
               ∨ (if decide (start buf_six ≠ start_of_storage buf_six)
                  then start buf_six - 1
                  else end_of_storage buf_six - 1) ≠ finish buf_six)
    by (left; reflexivity).
  split; [exact wf_buf_six|]. split; [exact Hi|]. split; [exact Hb|].
  split; [exact Hr|].
  exact (insert_second_branch buf_six 2 99 wf_buf_six Hi Hb Hr).
Defined.

Lemma erase_second_branch_full_witness :
  wf buf_six
  ∧ finish buf_six = end_of_storage buf_six
  ∧ 2 ≤ size buf_six
  ∧ 0 ≤ 2 < size buf_six
  ∧ iter_diff buf_six (cursor buf_six 2) (begin buf_six)
    < iter_diff buf_six (end_ buf_six) (cursor buf_six 2)
  ∧ ∃ b' l,
      erase (cursor buf_six 2) buf_six = Returns (cursor buf_six 2, b')
      ∧ elements buf_six = Returns l
      ∧ elements b'
        = Returns (take (Z.to_nat 2) l ++ drop (S (Z.to_nat 2)) l)
      ∧ size b' = size buf_six - 1
      ∧ capacity b' = capacity buf_six.
Proof.
  assert (Hf : finish buf_six = end_of_storage buf_six) by reflexivity.
  assert (Hn : 2 ≤ size buf_six) by (change (size buf_six) with 6; lia).
  assert (Hi : 0 ≤ 2 < size buf_six) by (change (size buf_six) with 6; lia).
  assert (Hb : iter_diff buf_six (cursor buf_six 2) (begin buf_six)
               < iter_diff buf_six (end_ buf_six) (cursor buf_six 2))
    by reflexivity.
  split; [exact wf_buf_six|]. split; [exact Hf|]. split; [exact Hn|].
  split; [exact Hi|]. split; [exact Hb|].
  exact (erase_second_branch_full buf_six 2 wf_buf_six Hf Hn Hi Hb).
Defined.
